(** * fm-index: record boundaries, coordinate mapping and the query pipeline

    A shallow embedding of [src/external/fm-index.cpp].  The compressed
    suffix array of sdsl is an external collaborator and enters as an
    interface ([TextIndex]); everything the driver itself does (argument
    parsing, cache handling, the record-start table, the query loop, the
    translation of absolute hits to record-relative coordinates and the
    exit codes) is translated function by function. *)

From Stdlib Require Import ZArith String Ascii List Bool Lia.
From Stdlib Require Import Sorting.Sorted.
From Stdlib Require DecimalString.
Import ListNotations.

Local Open Scope Z_scope.

(** ** Machine integers *)

(** [size_t] on the LP64 targets the program is built for: 64 bits, unsigned,
    arithmetic modulo [2^64]. *)
Module SizeT.

Definition modulus : Z := 2 ^ 64.

Definition wrap (z : Z) : Z := z mod modulus.

Definition add (a b : Z) : Z := wrap (a + b).

Definition sub (a b : Z) : Z := wrap (a - b).

Definition in_range (z : Z) : Prop := 0 <= z < modulus.

End SizeT.

(** [INT_MAX] for the 32-bit [int] loop counter of [getRecordStarts]. *)
Definition INT_MAX : Z := 2 ^ 31 - 1.

(** ** Bytes, vectors *)

Definition byte := ascii.
Definition bytes := list byte.

(** The line terminator ["\n"]. *)
Definition LF : byte := "010"%char.
Definition TAB : byte := "009"%char.

(** [std::vector<size_t>]: the elements in order.  [size()] is the length;
    [operator[]] outside the vector is undefined behaviour, which [vec_at]
    reports as [None]. *)
Definition vector := list Z.

Definition size (v : vector) : Z := Z.of_nat (length v).

Definition vec_at (v : vector) (i : Z) : option Z :=
  if (0 <=? i) && (i <? size v) then nth_error v (Z.to_nat i) else None.

(** ** Outcomes of a call *)

(** What a C++ call can throw.  [FmIndexException] is the program's own
    class (declared in fm-index.hpp); [StdException] stands for any other
    class derived from [std::exception]; [ForeignThrow] for a thrown object
    of any other type, which only [catch (...)] receives. *)
Inductive exn : Type :=
| FmIndexException (what : string)
| StdException (what : string)
| ForeignThrow.

(** A call returns, throws, or runs into undefined behaviour (an access
    outside a vector, signed overflow).  [OutOfFuel] is an artefact of the
    bounded loops below and is shown unreachable. *)
Inductive outcome (A : Type) : Type :=
| Ret (a : A)
| Throw (e : exn)
| Undefined
| OutOfFuel.

Arguments Ret {A} a.
Arguments Throw {A} e.
Arguments Undefined {A}.
Arguments OutOfFuel {A}.

(** ** findSourceId *)

(** One evaluation of the loop of [findSourceId], from index [i]:
<<
    for (size_t i = 0; i < recordStarts.size() - 1; ++i)
        if (recordStarts[i] <= hitBegin && hitBegin < recordStarts[i + 1])
            return i;
    throw FmIndexException("Invalid hit: cannot associate a record.");
>>
    The bound [size() - 1] is computed on [size_t]; [&&] evaluates its right
    operand only when the left one holds. *)
Definition findSourceId_bound (recordStarts : vector) : Z :=
  SizeT.sub (size recordStarts) 1.

Definition invalid_hit : exn :=
  FmIndexException "Invalid hit: cannot associate a record.".

Fixpoint findSourceId_loop (fuel : nat) (recordStarts : vector)
    (hitBegin i : Z) : outcome Z :=
  match fuel with
  | O => OutOfFuel
  | S fuel' =>
      if i <? findSourceId_bound recordStarts then
        match vec_at recordStarts i with
        | None => Undefined
        | Some lo =>
            if lo <=? hitBegin then
              match vec_at recordStarts (SizeT.add i 1) with
              | None => Undefined
              | Some hi =>
                  if hitBegin <? hi then Ret i
                  else findSourceId_loop fuel' recordStarts hitBegin (SizeT.add i 1)
              end
            else findSourceId_loop fuel' recordStarts hitBegin (SizeT.add i 1)
        end
      else Throw invalid_hit
  end.

(** The loop leaves after at most [size()] tests of its condition (or at the
    first access outside the vector), so this fuel is never used up; see
    [findSourceId_terminates]. *)
Definition findSourceId (recordStarts : vector) (hitBegin : Z) : outcome Z :=
  findSourceId_loop (S (length recordStarts)) recordStarts hitBegin 0.

(** ** The full-text index *)

(** Modelled from the spec: the index engine is sdsl's [csa_wt], a library
    outside the repository.  The driver uses three of its operations:
    [construct] (build an index over the bytes of the reference file; it may
    throw), [locate] (the absolute offsets at which a pattern occurs, in the
    index's own order) and the (de)serialisation, which appears in [World]
    below. *)
Class TextIndex : Type := {
  Index : Type;
  construct : bytes -> outcome Index;
  locate : Index -> bytes -> list Z
}.

(** [pat] occurs in [T] at offset [b]. *)
Definition occurs_at (T pat : bytes) (b : Z) : Prop :=
  0 <= b /\ b + Z.of_nat (length pat) <= Z.of_nat (length T)
  /\ firstn (length pat) (skipn (Z.to_nat b) T) = pat.

(** The contract of [locate] for an index over the text [T]: the occurrences
    of the pattern, each once. *)
Record Indexes `{TextIndex} (idx : Index) (T : bytes) : Prop := {
  locate_sound : forall pat b, In b (locate idx pat) -> occurs_at T pat b;
  locate_complete : forall pat b, occurs_at T pat b -> In b (locate idx pat);
  locate_nodup : forall pat, NoDup (locate idx pat)
}.

(** [std::sort] on offsets: ascending.  Insertion sort stands for it. *)
Fixpoint sort_insert (x : Z) (l : list Z) : list Z :=
  match l with
  | [] => [x]
  | y :: l' => if x <=? y then x :: l else y :: sort_insert x l'
  end.

Fixpoint sort (l : list Z) : list Z :=
  match l with
  | [] => []
  | x :: l' => sort_insert x (sort l')
  end.

(** ** Streams *)

(** An input stream: the bytes not yet extracted and the two state bits the
    program tests. *)
Record istream : Type := {
  buf : bytes;
  eofbit : bool;
  failbit : bool
}.

Definition open_stream (content : bytes) : istream :=
  {| buf := content; eofbit := false; failbit := false |}.

(** [while (queriesData && !queriesData.eof())]. *)
Definition stream_ok (s : istream) : bool :=
  negb (failbit s) && negb (eofbit s).

(** Split at the first line terminator: the bytes before it, and the bytes
    after it when there is one. *)
Fixpoint split_line (l : bytes) : bytes * option bytes :=
  match l with
  | [] => ([], None)
  | c :: l' =>
      if Ascii.eqb c LF then ([], Some l')
      else let '(line, rest) := split_line l' in (c :: line, rest)
  end.

(** [getline(stream, str)].  On a stream that is not good nothing is
    extracted, [failbit] is set and [str] is left alone.  Otherwise [str] is
    cleared and filled up to the terminator, which is extracted and dropped;
    reaching the end of the data sets [eofbit], and [failbit] too when
    nothing at all was extracted. *)
Definition getline (s : istream) (str : bytes) : istream * bytes :=
  if failbit s || eofbit s then
    ({| buf := buf s; eofbit := eofbit s; failbit := true |}, str)
  else
    match split_line (buf s) with
    | (line, Some rest) =>
        ({| buf := rest; eofbit := false; failbit := false |}, line)
    | (line, None) =>
        ({| buf := []; eofbit := true;
            failbit := match line with [] => true | _ => false end |}, line)
    end.

(** ** Output *)

(** One row of standard output, as [locateQuery] prints it. *)
Record Hit : Type := {
  row_source : string;
  row_recordId : Z;
  row_recordLength : Z;
  row_queryId : Z;
  row_hitBegin : Z;
  row_hitEnd : Z
}.

(** [operator<<] on a [size_t]: decimal digits. *)
Definition print_size_t (z : Z) : string :=
  DecimalString.NilZero.string_of_uint (N.to_uint (Z.to_N z)).

Definition tab : string := String TAB EmptyString.

(** The text of a row, without the [endl]. *)
Definition print_hit (h : Hit) : string :=
  (row_source h ++ tab ++ print_size_t (row_recordId h) ++ tab
   ++ print_size_t (row_recordLength h) ++ tab
   ++ print_size_t (row_queryId h) ++ tab
   ++ print_size_t (row_hitBegin h) ++ tab ++ print_size_t (row_hitEnd h))%string.

(** The lines of the diagnostic stream.  Each constructor but [UsageText] is
    one line; elapsed seconds and sizes in MiB, which are floating point, are
    left out of the JSON lines. *)
Inductive Diag : Type :=
| ErrorLine (what : string)
| BlankLine
| UsageText
| CriticalLine (what : string)
| InfoIndexMissing (file : string)
| InfoBuiltIndex (file : string)
| InfoRecordIndexMissing (file : string)
| InfoBuiltRecordIndex (file : string) (numRecords : Z)
| InfoProcessing (source : string)
| InfoFinished (source : string) (numHits : Z)
| WarnSkipping (file : string).

(** ** The state of a run and its environment *)

(** What a run changes: the rows written to standard output, the lines
    written to the diagnostic stream, the number of [poll] calls made so far
    and [cin]. *)
Record State : Type := {
  out : list Hit;
  err : list Diag;
  polls : nat;
  cin : istream
}.

Definition initial_state (stdin_data : bytes) : State :=
  {| out := []; err := []; polls := 0; cin := open_stream stdin_data |}.

(** What a run observes of its surroundings, one field per call site. *)
Record World `{TextIndex} : Type := {
  (** [getenv("TMPDIR")] *)
  TMPDIR : option string;
  (** [stat] says the path is a directory *)
  is_directory : string -> bool;
  (** [load_from_file(fmIndex, file)]: the index read, if any *)
  load_index : string -> option Index;
  (** the reference file: [None] when it cannot be opened *)
  reference_data : string -> option bytes;
  (** the result of [store_to_file(fmIndex, file)] *)
  store_index : string -> bool;
  (** [load_from_plain_array<size_t>(recordStarts, file)] *)
  load_plain_array : string -> option vector;
  (** the result of [store_to_plain_array<size_t>(recordStarts, file)] *)
  store_plain_array : string -> bool;
  (** a query file: [None] when it cannot be opened *)
  query_data : string -> option bytes;
  (** the return value of the [k]-th call of [poll] on standard input *)
  poll : nat -> Z
}.

(** ** The monad of the driver *)

(** State is threaded through calls and survives a throw: rows already
    written stay written. *)
Definition M (A : Type) : Type := State -> outcome A * State.

Definition ret {A} (a : A) : M A := fun s => (Ret a, s).

Definition bind {A B} (c : M A) (k : A -> M B) : M B :=
  fun s =>
    match c s with
    | (Ret a, s') => k a s'
    | (Throw e, s') => (Throw e, s')
    | (Undefined, s') => (Undefined, s')
    | (OutOfFuel, s') => (OutOfFuel, s')
    end.

Definition lift {A} (o : outcome A) : M A := fun s => (o, s).

Definition throw {A} (e : exn) : M A := lift (Throw e).

Definition undefined {A} : M A := lift Undefined.

Declare Scope fm_scope.
Delimit Scope fm_scope with fm.
Notation "x <- c ;; k" := (bind c (fun x => k))
  (at level 61, c at next level, right associativity) : fm_scope.
Notation "' pat <- c ;; k" := (bind c (fun x => match x with pat => k end))
  (at level 61, pat pattern, c at next level, right associativity) : fm_scope.
Notation "c ;; k" := (bind c (fun _ => k))
  (at level 61, right associativity) : fm_scope.
Local Open Scope fm_scope.

(** [cerr << ... << endl] *)
Definition log (d : Diag) : M unit :=
  fun s => (Ret tt, {| out := out s; err := err s ++ [d];
                      polls := polls s; cin := cin s |}).

(** [cout << ... << endl] *)
Definition print (h : Hit) : M unit :=
  fun s => (Ret tt, {| out := out s ++ [h]; err := err s;
                      polls := polls s; cin := cin s |}).

Definition get_cin : M istream := fun s => (Ret (cin s), s).

Definition set_cin (i : istream) : M unit :=
  fun s => (Ret tt, {| out := out s; err := err s; polls := polls s; cin := i |}).

(** [try { c } catch (...) { h }]: [h] says which exceptions it takes. *)
Definition try_catch {A} (c : M A) (h : exn -> option (M A)) : M A :=
  fun s =>
    match c s with
    | (Throw e, s') =>
        match h e with
        | Some k => k s'
        | None => (Throw e, s')
        end
    | r => r
    end.

(** [printUsage]: the usage text, taken as one block. *)
Definition printUsage : M unit := log UsageText.

Definition lift_access {A} (o : option A) : M A :=
  match o with
  | Some a => ret a
  | None => undefined
  end.

(** [v[i] = x], undefined outside the vector. *)
Definition vec_set (v : vector) (i x : Z) : option vector :=
  if (0 <=? i) && (i <? size v)
  then Some (firstn (Z.to_nat i) v ++ x :: skipn (S (Z.to_nat i)) v)
  else None.

(** [v.resize(n)]: cut, or fill up with zeros. *)
Definition resize (v : vector) (n : Z) : vector :=
  firstn (Z.to_nat n) v ++ repeat 0 (Z.to_nat n - length v).

Definition bytes_of (s : string) : bytes := list_ascii_of_string s.

(** [argv[i][k]] of a C string: past the last character sits the NUL. *)
Definition arg_char (a : string) (k : nat) : ascii :=
  match String.get k a with
  | Some c => c
  | None => zero
  end.

(** [string(argv[i] + 2)] *)
Definition arg_from2 (a : string) : string :=
  String.substring 2 (String.length a - 2) a.

Section Driver.

Context `{TextIndex}.
Variable w : World.

(** [hasStdin]: one [poll] with a zero timeout; true when it returns a
    positive count. *)
Definition hasStdin : M bool :=
  fun s => (Ret (0 <? poll w (polls s)),
            {| out := out s; err := err s; polls := S (polls s); cin := cin s |}).

Definition getDefaultTempDir : string :=
  match TMPDIR w with
  | None => "/tmp"%string
  | Some d => d
  end.

Definition dirExists (dir : string) : bool := is_directory w dir.

(** The option loop of [parseArgs] over the arguments from [argv[i]] on. *)
Fixpoint parseArgs_loop (args : list string) (i : Z) (tempDir : string)
    : outcome (Z * string) :=
  match args with
  | [] => Ret (i, tempDir)
  | a :: rest =>
      if Ascii.eqb (arg_char a 0) "-" then
        if Ascii.eqb (arg_char a 1) "P" then
          let tempDir' := arg_from2 a in
          if (Z.of_nat (String.length tempDir') =? 0)
          then Throw (FmIndexException "Missing value for -P.")
          else parseArgs_loop rest (i + 1) tempDir'
        else
          Throw (FmIndexException
                   ("Invalid option -" ++ String (arg_char a 1) "."))
      else Ret (i, tempDir)
  end.

(** [parseArgs]: the index of the first positional argument and the
    temporary directory. *)
Definition parseArgs (argv : list string) : outcome (Z * string) :=
  match parseArgs_loop (tl argv) 1 getDefaultTempDir with
  | Ret (i, tempDir) =>
      if negb (dirExists tempDir)
      then Throw (FmIndexException
                    ("Cannot open temporary directory: " ++ tempDir))
      else Ret (i, tempDir)
  | o => o
  end.

(** [buildIndex] *)
Definition buildIndex (referenceFile : string) : M Index :=
  let indexFile := (referenceFile ++ ".fm9")%string in
  match load_index w indexFile with
  | Some fmIndex => ret fmIndex
  | None =>
      match reference_data w referenceFile with
      | None =>
          throw (FmIndexException
                   ("File `" ++ referenceFile ++ "` does not exist."))
      | Some text =>
          log (InfoIndexMissing indexFile) ;;
          fmIndex <- lift (construct text) ;;
          (* store_to_file(fmIndex, indexFile); the result is dropped *)
          let _ := store_index w indexFile in
          log (InfoBuiltIndex indexFile) ;;
          ret fmIndex
      end
  end.

(** The loop of [getRecordStarts]:
<<
    for (int i = 1; i < recordStarts.size(); ++i)
        recordStarts[i] = lineEndLocations[i - 1] + 1;
>>
    [i] is an [int]: incrementing it past [INT_MAX] is undefined. *)
Fixpoint fill_loop (fuel : nat) (lineEndLocations recordStarts : vector)
    (i : Z) : outcome vector :=
  match fuel with
  | O => OutOfFuel
  | S fuel' =>
      if i <? size recordStarts then
        match vec_at lineEndLocations (i - 1) with
        | None => Undefined
        | Some e =>
            match vec_set recordStarts i (SizeT.add e 1) with
            | None => Undefined
            | Some recordStarts' =>
                if i <? INT_MAX
                then fill_loop fuel' lineEndLocations recordStarts' (i + 1)
                else Undefined
            end
        end
      else Ret recordStarts
  end.

(** The table built from the index when no cached one loads. *)
Definition build_recordStarts (fmIndex : Index) : outcome vector :=
  let lineEndLocations := sort (locate fmIndex [LF]) in
  let recordStarts := resize [] (SizeT.add (size lineEndLocations) 1) in
  match vec_set recordStarts 0 0 with
  | None => Undefined
  | Some recordStarts =>
      fill_loop (S (length recordStarts)) lineEndLocations recordStarts 1
  end.

(** [getRecordStarts] *)
Definition getRecordStarts (fmIndex : Index) (referenceFile : string)
    : M vector :=
  let recordIndexFile := (referenceFile ++ ".idx")%string in
  match load_plain_array w recordIndexFile with
  | Some recordStarts => ret recordStarts
  | None =>
      log (InfoRecordIndexMissing recordIndexFile) ;;
      recordStarts <- lift (build_recordStarts fmIndex) ;;
      if negb (store_plain_array w recordIndexFile)
      then throw (FmIndexException
                    ("Could not store record index: " ++ recordIndexFile))
      else
        log (InfoBuiltRecordIndex recordIndexFile
               (SizeT.sub (size recordStarts) 1)) ;;
        ret recordStarts
  end.

(** The body of the loop of [locateQuery] for one location. *)
Definition locateQuery_hit (recordStarts : vector) (sourceName : string)
    (queryId : Z) (query : bytes) (hitBegin : Z) : M unit :=
  let hitEnd := SizeT.add hitBegin (Z.of_nat (length query)) in
  sourceId <- lift (findSourceId recordStarts hitBegin) ;;
  sourceBegin <- lift_access (vec_at recordStarts sourceId) ;;
  next <- lift_access (vec_at recordStarts (SizeT.add sourceId 1)) ;;
  let sourceLength := SizeT.sub (SizeT.sub next sourceBegin) 1 in
  print {| row_source := sourceName;
           row_recordId := sourceId;
           row_recordLength := sourceLength;
           row_queryId := queryId;
           row_hitBegin := SizeT.sub hitBegin sourceBegin;
           row_hitEnd := SizeT.sub hitEnd sourceBegin |}.

(** [for (size_t i = 0; i < locations.size(); ++i)] over the sorted
    locations. *)
Fixpoint locateQuery_loop (recordStarts : vector) (sourceName : string)
    (queryId : Z) (query : bytes) (locations : list Z) : M unit :=
  match locations with
  | [] => ret tt
  | hitBegin :: rest =>
      locateQuery_hit recordStarts sourceName queryId query hitBegin ;;
      locateQuery_loop recordStarts sourceName queryId query rest
  end.

(** [locateQuery] *)
Definition locateQuery (fmIndex : Index) (recordStarts : vector)
    (sourceName : string) (queryId : Z) (query : bytes) : M Z :=
  let locations := sort (locate fmIndex query) in
  locateQuery_loop recordStarts sourceName queryId query locations ;;
  ret (size locations).

(** The [while] loop of [locateQueries]; it returns the stream as it
    leaves it and the number of hits. *)
Fixpoint locateQueries_loop (fuel : nat) (fmIndex : Index)
    (recordStarts : vector) (queriesData : istream) (sourceName : string)
    (queryBuffer : bytes) (numHits queryId : Z) : M (istream * Z) :=
  match fuel with
  | O => lift OutOfFuel
  | S fuel' =>
      if stream_ok queriesData then
        let '(queriesData, queryBuffer) := getline queriesData queryBuffer in
        '(numHits, queryId) <-
          (if 0 <? Z.of_nat (length queryBuffer) then
             n <- locateQuery fmIndex recordStarts sourceName queryId
                    queryBuffer ;;
             ret (SizeT.add numHits n, SizeT.add queryId 1)
           else ret (numHits, queryId)) ;;
        stop <-
          (if String.eqb sourceName "stdin" then
             ready <- hasStdin ;; ret (negb ready)
           else ret false) ;;
        if (stop : bool) then ret (queriesData, numHits)
        else locateQueries_loop fuel' fmIndex recordStarts queriesData
               sourceName queryBuffer numHits queryId
      else ret (queriesData, numHits)
  end.

(** [locateQueries]; every pass of its loop extracts a byte or sets
    [eofbit], which bounds the number of passes. *)
Definition locateQueries (fmIndex : Index) (recordStarts : vector)
    (queriesData : istream) (sourceName : string) (queryBuffer : bytes)
    : M istream :=
  log (InfoProcessing sourceName) ;;
  '(queriesData, numHits) <-
    locateQueries_loop (S (S (length (buf queriesData)))) fmIndex
      recordStarts queriesData sourceName queryBuffer 0 0 ;;
  log (InfoFinished sourceName numHits) ;;
  ret queriesData.

(** The loop of [main] over the query files. *)
Fixpoint main_files (fmIndex : Index) (recordStarts : vector)
    (queriesFiles : list string) (queryBuffer : bytes) : M unit :=
  match queriesFiles with
  | [] => ret tt
  | queryFile :: rest =>
      match query_data w queryFile with
      | None =>
          log (WarnSkipping queryFile) ;;
          main_files fmIndex recordStarts rest queryBuffer
      | Some content =>
          locateQueries fmIndex recordStarts (open_stream content)
            queryFile queryBuffer ;;
          main_files fmIndex recordStarts rest queryBuffer
      end
  end.

(** The inner [try] of [main]. *)
Definition main_args (argv : list string) : M (option Z) :=
  try_catch
    ('(positionalBegin, _) <- lift (parseArgs argv) ;;
     if Z.of_nat (length argv) - positionalBegin <? 1
     then throw (FmIndexException "Missing arguments.")
     else ret (Some positionalBegin))
    (fun e =>
       match e with
       | FmIndexException what =>
           Some (log (ErrorLine what) ;; log BlankLine ;; printUsage ;;
                 ret None)
       | _ => None
       end).

(** [main] from [if (!hasStdin() && numQueries == 0)] to the end of the
    outer [try] block: standard input, then the query files. *)
Definition main_queries (fmIndex : Index) (recordStarts : vector)
    (numQueries : Z) (queriesFiles : list string) : M Z :=
  ready <- hasStdin ;;
  if negb ready && (numQueries =? 0) then ret 0
  else
    let queryBuffer : bytes := [] in
    ready <- hasStdin ;;
    (if (ready : bool) then
       stdin <- get_cin ;;
       stdin <- locateQueries fmIndex recordStarts stdin "stdin"
                  queryBuffer ;;
       set_cin stdin
     else ret tt) ;;
    main_files fmIndex recordStarts
      (firstn (Z.to_nat numQueries) queriesFiles) queryBuffer ;;
    ret 0.

(** The outer [try] block of [main], up to its [return]. *)
Definition main_body (argv : list string) : M Z :=
  positional <- main_args argv ;;
  match positional with
  | None => ret 1
  | Some positionalBegin =>
      referenceFile <-
        lift_access (nth_error argv (Z.to_nat positionalBegin)) ;;
      let queriesFiles := skipn (Z.to_nat (positionalBegin + 1)) argv in
      let numQueries :=
        Z.max 0 (Z.of_nat (length argv) - positionalBegin - 1) in
      fmIndex <- buildIndex referenceFile ;;
      recordStarts <- getRecordStarts fmIndex referenceFile ;;
      main_queries fmIndex recordStarts numQueries queriesFiles
  end.

(** [main]: the exit code. *)
Definition main (argv : list string) : M Z :=
  try_catch (main_body argv)
    (fun e =>
       Some match e with
            | FmIndexException what => log (ErrorLine what) ;; ret 2
            | StdException what => log (CriticalLine what) ;; ret 3
            | ForeignThrow =>
                log (CriticalLine "Unexpected exception.") ;; ret 4
            end).

End Driver.

(** ** A reference implementation of the index *)

(** [pat] is a prefix of [T]. *)
Fixpoint prefix_eqb (pat T : bytes) : bool :=
  match pat, T with
  | [], _ => true
  | _ :: _, [] => false
  | p :: pat', t :: T' => Ascii.eqb p t && prefix_eqb pat' T'
  end.

(** The occurrences of [pat] in the text whose suffix from offset [b] is
    [suffix], pushed on [acc]: the last occurrence comes out first. *)
Fixpoint scan (pat suffix : bytes) (b : Z) (acc : list Z) : list Z :=
  let acc' := if prefix_eqb pat suffix then b :: acc else acc in
  match suffix with
  | [] => acc'
  | _ :: rest => scan pat rest (b + 1) acc'
  end.

(** An index that keeps the text and scans it.  Like sdsl's [construct] it
    refuses a text with a zero byte. *)
#[export] Instance ScanIndex : TextIndex := {
  Index := bytes;
  construct T :=
    if existsb (Ascii.eqb zero) T
    then Throw (StdException "Error: File contains zero symbol.")
    else Ret T;
  locate T pat := scan pat T 0 []
}.

(** ** Specification-side notions *)

(** The offsets of the terminator bytes of a text whose first byte has
    offset [b], ascending. *)
Fixpoint terminator_offsets (T : bytes) (b : Z) : list Z :=
  match T with
  | [] => []
  | c :: T' =>
      if Ascii.eqb c LF then b :: terminator_offsets T' (b + 1)
      else terminator_offsets T' (b + 1)
  end.

(** The number of terminator bytes of a text. *)
Definition num_terminators (T : bytes) : Z :=
  Z.of_nat (length (filter (fun c => Ascii.eqb c LF) T)).

(** [starts[i]], zero outside (used in statements only). *)
Definition at_ (v : vector) (i : Z) : Z := nth (Z.to_nat i) v 0.

Definition strictly_increasing (v : vector) : Prop :=
  forall i j, 0 <= i -> i < j -> j < size v -> at_ v i < at_ v j.

(** Every element is a [size_t] value. *)
Definition size_t_vector (v : vector) : Prop :=
  Forall SizeT.in_range v.

(** Offset [b] lies in record [i] of the table. *)
Definition in_record (starts : vector) (b i : Z) : Prop :=
  0 <= i /\ i + 1 < size starts /\ at_ starts i <= b < at_ starts (i + 1).

(** The bytes of [T] at offsets [[from, to)). *)
Definition slice (T : bytes) (from to : Z) : bytes :=
  firstn (Z.to_nat (to - from)) (skipn (Z.to_nat from) T).

(** The lines of a stream's data, as successive [getline] calls deliver
    them: the pieces between terminators, the last piece being what follows
    the last terminator (empty when the data ends with one, or is empty).
    [cur] is the part of the current line already passed. *)
Fixpoint lines_from (cur l : bytes) : list bytes :=
  match l with
  | [] => [cur]
  | c :: l' =>
      if Ascii.eqb c LF then cur :: lines_from [] l'
      else lines_from (cur ++ [c]) l'
  end.

Definition pending_lines (s : istream) : list bytes :=
  if stream_ok s then lines_from [] (buf s) else [].

(** Numbering of the lines of one source: a blank line gets nothing, a
    non-blank one the next id. *)
Fixpoint number_lines (lines : list bytes) (queryId : Z)
    : list (option (Z * bytes)) :=
  match lines with
  | [] => []
  | [] :: rest => None :: number_lines rest queryId
  | q :: rest => Some (queryId, q) :: number_lines rest (SizeT.add queryId 1)
  end.

Definition nonblank (l : bytes) : bool :=
  match l with
  | [] => false
  | _ => true
  end.

(** The stream after [n] more [getline] calls. *)
Fixpoint after_lines (n : nat) (s : istream) (str : bytes) : istream :=
  match n with
  | O => s
  | S n' => let '(s', str') := getline s str in after_lines n' s' str'
  end.

(** The numbered queries of a source, without the blank lines. *)
Definition located (items : list (option (Z * bytes))) : list (Z * bytes) :=
  flat_map (fun item => match item with Some x => [x] | None => [] end) items.

(** The ids [0, 1, 2, ...] as [size_t] values. *)
Definition ids_from_zero (n : nat) : list Z :=
  map (fun k => SizeT.wrap (Z.of_nat k)) (seq 0 n).

Section LineView.

Context `{TextIndex}.
Variable w : World.

(** What one pass of the loop of [locateQueries] does with a numbered
    line. *)
Definition locate_line (fmIndex : Index) (recordStarts : vector)
    (sourceName : string) (item : option (Z * bytes)) (numHits : Z) : M Z :=
  match item with
  | Some (queryId, query) =>
      n <- locateQuery fmIndex recordStarts sourceName queryId query ;;
      ret (SizeT.add numHits n)
  | None => ret numHits
  end.

(** The loop of [locateQueries] told by lines: each line in turn, and for
    the source named [stdin] the availability check after each. *)
Fixpoint locate_lines (fmIndex : Index) (recordStarts : vector)
    (sourceName : string) (items : list (option (Z * bytes))) (numHits : Z)
    : M Z :=
  match items with
  | [] => ret numHits
  | item :: rest =>
      numHits <- locate_line fmIndex recordStarts sourceName item numHits ;;
      stop <-
        (if String.eqb sourceName "stdin" then
           ready <- hasStdin w ;; ret (negb ready)
         else ret false) ;;
      if (stop : bool) then ret numHits
      else locate_lines fmIndex recordStarts sourceName rest numHits
  end.

End LineView.

(** The state after one more line on the diagnostic stream. *)
Definition add_diag (s : State) (d : Diag) : State :=
  {| out := out s; err := err s ++ [d]; polls := polls s; cin := cin s |}.

(** The state after [n] more calls of [poll]. *)
Definition add_polls (s : State) (n : nat) : State :=
  {| out := out s; err := err s; polls := n + polls s; cin := cin s |}.

(** The state after writing [rows] to standard output. *)
Definition add_rows (s : State) (rows : list Hit) : State :=
  {| out := out s ++ rows; err := err s; polls := polls s; cin := cin s |}.

(** What a row must say about the hit at absolute offset [b] of the query
    [q], given the text and the table of record starts. *)
Definition hit_row_ok (T : bytes) (starts : vector) (name : string)
    (qid : Z) (q : bytes) (b : Z) (row : Hit) : Prop :=
  let r := row_recordId row in
  row_source row = name
  /\ row_queryId row = qid
  /\ in_record starts b r
  /\ row_recordLength row = at_ starts (r + 1) - at_ starts r - 1
  /\ row_hitBegin row = b - at_ starts r
  /\ row_hitEnd row = (b + Z.of_nat (length q)) - at_ starts r
  /\ row_hitEnd row - row_hitBegin row = Z.of_nat (length q)
  /\ slice T (at_ starts r + row_hitBegin row) (at_ starts r + row_hitEnd row)
     = q.

(** ** Example runs *)

(** A run on the reference file [ref] with the scanning index: the content
    of [ref] (if it exists), the cached index and record starts (if any),
    whether the two cache files can be written, the query files by name, and
    the answers of [poll].  The temporary directory [/tmp] exists. *)
Definition scenario (text cached_index : option bytes)
    (cached_starts : option vector) (store_index_ok store_array_ok : bool)
    (queries : list (string * bytes)) (p : nat -> Z)
    : World (H := ScanIndex) := {|
  TMPDIR := None;
  is_directory := fun d => String.eqb d "/tmp";
  load_index := fun f => if String.eqb f "ref.fm9" then cached_index else None;
  reference_data := fun f => if String.eqb f "ref" then text else None;
  store_index := fun _ => store_index_ok;
  load_plain_array :=
    fun f => if String.eqb f "ref.idx" then cached_starts else None;
  store_plain_array := fun _ => store_array_ok;
  query_data :=
    fun f => option_map snd (find (fun q => String.eqb (fst q) f) queries);
  poll := p
|}.

(** Three queries on standard input; data is there at the start and after
    the first line, and none after the second. *)
Definition three_lines : bytes :=
  bytes_of "ACG" ++ [LF] ++ bytes_of "CGT" ++ [LF] ++ bytes_of "GA" ++ [LF].

Definition two_lines_ready (k : nat) : Z :=
  match k with
  | O | S O | S (S O) => 1
  | _ => 0
  end.

(** The two records [ACGT] and [ACGA]. *)
Definition two_records : bytes :=
  bytes_of "ACGT" ++ [LF] ++ bytes_of "ACGA" ++ [LF].

(** A line of tab-separated fields. *)
Definition tsv (fields : list string) : string := String.concat tab fields.

(** The same world, whatever [store_to_file] answers instead. *)
Definition with_store_index `{TextIndex} (w : World) (answer : string -> bool)
    : World := {|
  TMPDIR := TMPDIR w;
  is_directory := is_directory w;
  load_index := load_index w;
  reference_data := reference_data w;
  store_index := answer;
  load_plain_array := load_plain_array w;
  store_plain_array := store_plain_array w;
  query_data := query_data w;
  poll := poll w
|}.

(** The same world with other answers of [poll]. *)
Definition with_poll `{TextIndex} (w : World) (p : nat -> Z) : World := {|
  TMPDIR := TMPDIR w;
  is_directory := is_directory w;
  load_index := load_index w;
  reference_data := reference_data w;
  store_index := store_index w;
  load_plain_array := load_plain_array w;
  store_plain_array := store_plain_array w;
  query_data := query_data w;
  poll := p
|}.

(** A run in which the index cannot be written: [ref] exists, no cached
    index loads, [store_to_file] fails, the record starts are cached, and
    the query file [queries] holds the query [ACG]. *)
Definition index_unwritable : World (H := ScanIndex) :=
  scenario (Some two_records) None (Some [0; 5; 10]) false true
    [("queries"%string, bytes_of "ACG" ++ [LF])] (fun _ => 0).

(** A first run: nothing cached, everything can be written. *)
Definition first_run (text : bytes) (queries : list (string * bytes))
    (p : nat -> Z) : World (H := ScanIndex) :=
  scenario (Some text) None None true true queries p.

(** The same world with another content (or absence) of the reference
    files. *)
Definition with_reference `{TextIndex} (w : World)
    (data : string -> option bytes) : World := {|
  TMPDIR := TMPDIR w;
  is_directory := is_directory w;
  load_index := load_index w;
  reference_data := data;
  store_index := store_index w;
  load_plain_array := load_plain_array w;
  store_plain_array := store_plain_array w;
  query_data := query_data w;
  poll := poll w
|}.

(** ** Notions for the command line and for streams *)

(** The argument starts with a dash: [parseArgs] takes it for an option. *)
Definition is_dash (a : string) : bool := Ascii.eqb (arg_char a 0) "-".

(** The argument is [-P<dir>] with a non-empty [<dir>]. *)
Definition is_P_option (a : string) : bool :=
  is_dash a && Ascii.eqb (arg_char a 1) "P"
  && negb (Z.of_nat (String.length (arg_from2 a)) =? 0).


(** Lines put together again, a terminator between two of them. *)
Definition join_lines (lines : list bytes) : bytes :=
  match lines with
  | [] => []
  | first :: rest => first ++ flat_map (fun line => LF :: line) rest
  end.

(** The reading skeleton of the loop of [locateQueries]: [getline] as long
    as the stream is good; the lines it delivers. *)
Fixpoint read_lines (fuel : nat) (s : istream) (str : bytes) : list bytes :=
  match fuel with
  | O => []
  | S fuel' =>
      if stream_ok s then
        let '(s', line) := getline s str in line :: read_lines fuel' s' line
      else []
  end.

(** The absolute offset a row stands for under a table of record starts. *)
Definition row_offset (starts : vector) (row : Hit) : Z :=
  at_ starts (row_recordId row) + row_hitBegin row.

(** * Facts *)

(** ** Machine arithmetic and vectors *)

Lemma modulus_pos : 0 < SizeT.modulus.
Proof. reflexivity. Qed.

Lemma wrap_small z : SizeT.in_range z -> SizeT.wrap z = z.
Proof. intros Hz. apply Z.mod_small. exact Hz. Qed.

Lemma wrap_range z : SizeT.in_range (SizeT.wrap z).
Proof. apply Z.mod_pos_bound. exact modulus_pos. Qed.

Lemma add_small a b : SizeT.in_range (a + b) -> SizeT.add a b = a + b.
Proof. apply wrap_small. Qed.

Lemma sub_small a b : SizeT.in_range (a - b) -> SizeT.sub a b = a - b.
Proof. apply wrap_small. Qed.

Lemma size_nonneg (v : vector) : 0 <= size v.
Proof. unfold size. lia. Qed.

Lemma size_zero_nil (v : vector) : size v = 0 -> v = [].
Proof. destruct v; [reflexivity|]. unfold size. simpl. lia. Qed.

Lemma size_cons x (v : vector) : size (x :: v) = size v + 1.
Proof. unfold size. simpl length. lia. Qed.

Lemma size_app (u v : vector) : size (u ++ v) = size u + size v.
Proof. unfold size. rewrite length_app. lia. Qed.

Lemma vec_at_inside (v : vector) i :
  0 <= i < size v -> vec_at v i = Some (at_ v i).
Proof.
  intros [H0 H1]. unfold vec_at, at_.
  rewrite (proj2 (Z.leb_le _ _) H0), (proj2 (Z.ltb_lt _ _) H1). simpl.
  apply nth_error_nth'. unfold size in H1. lia.
Qed.

Lemma vec_at_outside (v : vector) i :
  ~ (0 <= i < size v) -> vec_at v i = None.
Proof.
  intros Hn. unfold vec_at.
  destruct (0 <=? i) eqn:E0; [|reflexivity].
  destruct (i <? size v) eqn:E1; [|reflexivity].
  apply Z.leb_le in E0. apply Z.ltb_lt in E1. lia.
Qed.

Lemma vec_at_Some_inv (v : vector) i x :
  vec_at v i = Some x -> 0 <= i < size v /\ x = at_ v i.
Proof.
  intros Hx.
  destruct (Z_le_dec 0 i) as [H0|H0]; [destruct (Z_lt_dec i (size v)) as [H1|H1]|].
  - rewrite vec_at_inside in Hx by lia. injection Hx as <-. split; [lia|reflexivity].
  - rewrite vec_at_outside in Hx by lia. discriminate.
  - rewrite vec_at_outside in Hx by lia. discriminate.
Qed.

Lemma at_in_range (v : vector) i :
  size_t_vector v -> SizeT.in_range (at_ v i).
Proof.
  intros Hv. unfold at_.
  destruct (nth_in_or_default (Z.to_nat i) v 0) as [Hin| ->].
  - unfold size_t_vector in Hv. rewrite Forall_forall in Hv. apply Hv, Hin.
  - split; [lia|apply modulus_pos].
Qed.

(** ** The boundary lookup *)

Section FindSourceId.

Variable recordStarts : vector.
Variable hitBegin : Z.

Hypothesis size_fits : 1 <= size recordStarts < SizeT.modulus.

Let hit_in (j : Z) : Prop :=
  at_ recordStarts j <= hitBegin < at_ recordStarts (j + 1).

Lemma findSourceId_bound_nonempty :
  findSourceId_bound recordStarts = size recordStarts - 1.
Proof. unfold findSourceId_bound. apply sub_small. unfold SizeT.in_range. lia. Qed.

(** The loop returns the first index whose range holds the offset, and
    throws when there is none; it neither runs dry nor leaves the vector. *)
Lemma findSourceId_loop_first (fuel : nat) :
  forall i,
    0 <= i <= size recordStarts - 1 ->
    (Z.to_nat (size recordStarts - 1 - i) < fuel)%nat ->
    (forall j, 0 <= j < i -> ~ hit_in j) ->
    (exists r, findSourceId_loop fuel recordStarts hitBegin i = Ret r
               /\ i <= r < size recordStarts - 1 /\ hit_in r
               /\ forall j, 0 <= j < r -> ~ hit_in j)
    \/ (findSourceId_loop fuel recordStarts hitBegin i = Throw invalid_hit
        /\ forall j, 0 <= j < size recordStarts - 1 -> ~ hit_in j).
Proof.
  induction fuel as [|fuel IH]; intros i Hi Hfuel Hbefore; [lia|].
  simpl. rewrite findSourceId_bound_nonempty.
  destruct (i <? size recordStarts - 1) eqn:Elt.
  - apply Z.ltb_lt in Elt.
    rewrite (vec_at_inside recordStarts i) by lia.
    assert (Hnext : SizeT.add i 1 = i + 1)
      by (apply add_small; unfold SizeT.in_range; lia).
    rewrite Hnext.
    assert (Hstep : forall j, 0 <= j < i + 1 -> ~ hit_in i -> ~ hit_in j).
    { intros j Hj Hni. destruct (Z.eq_dec j i) as [->|Hne]; [exact Hni|].
      apply Hbefore. lia. }
    set (next := findSourceId_loop fuel recordStarts hitBegin (i + 1)).
    assert (Hweaken :
             (exists r, next = Ret r
                        /\ i + 1 <= r < size recordStarts - 1 /\ hit_in r
                        /\ forall j, 0 <= j < r -> ~ hit_in j)
             \/ (next = Throw invalid_hit
                 /\ forall j, 0 <= j < size recordStarts - 1 -> ~ hit_in j) ->
             (exists r, next = Ret r
                        /\ i <= r < size recordStarts - 1 /\ hit_in r
                        /\ forall j, 0 <= j < r -> ~ hit_in j)
             \/ (next = Throw invalid_hit
                 /\ forall j, 0 <= j < size recordStarts - 1 -> ~ hit_in j)).
    { intros [(r & Hr & Hrange & Hrest)|Hthrow]; [left|right; exact Hthrow].
      exists r. split; [exact Hr|]. split; [lia|exact Hrest]. }
    destruct (at_ recordStarts i <=? hitBegin) eqn:Elo.
    + rewrite (vec_at_inside recordStarts (i + 1)) by lia.
      destruct (hitBegin <? at_ recordStarts (i + 1)) eqn:Ehi.
      * left. exists i. apply Z.leb_le in Elo. apply Z.ltb_lt in Ehi.
        repeat split; try lia; try assumption.
      * apply Hweaken, IH; [lia|lia|].
        intros j Hj. apply Hstep; [exact Hj|].
        apply Z.ltb_ge in Ehi. unfold hit_in. lia.
    + apply Hweaken, IH; [lia|lia|].
      intros j Hj. apply Hstep; [exact Hj|].
      apply Z.leb_gt in Elo. unfold hit_in. lia.
  - apply Z.ltb_ge in Elt. right. split; [reflexivity|].
    intros j Hj. apply Hbefore. lia.
Qed.

Lemma findSourceId_first :
  (exists r, findSourceId recordStarts hitBegin = Ret r
             /\ in_record recordStarts hitBegin r
             /\ forall j, 0 <= j < r -> ~ hit_in j)
  \/ (findSourceId recordStarts hitBegin = Throw invalid_hit
      /\ forall j, ~ in_record recordStarts hitBegin j).
Proof.
  unfold findSourceId.
  destruct (findSourceId_loop_first (S (length recordStarts)) 0)
    as [(r & Hr & Hrange & Hin & Hmin)|[Hthrow Hnone]].
  - lia.
  - unfold size. lia.
  - intros j Hj. lia.
  - left. exists r. split; [exact Hr|]. split; [|exact Hmin].
    unfold in_record. repeat split; try lia; apply Hin.
  - right. split; [exact Hthrow|].
    intros j (H0 & H1 & Hj). apply (Hnone j); [lia|exact Hj].
Qed.

(** [findSourceId] always comes to an end. *)
Lemma findSourceId_terminates :
  findSourceId recordStarts hitBegin <> OutOfFuel.
Proof.
  destruct findSourceId_first as [(r & -> & _)|[-> _]]; discriminate.
Qed.

(** An offset between the first and the last entry lies in some record,
    whatever the order of the entries in between. *)
Lemma in_record_exists :
  at_ recordStarts 0 <= hitBegin < at_ recordStarts (size recordStarts - 1) ->
  exists j, in_record recordStarts hitBegin j.
Proof.
  intros Hb.
  assert (Hk : forall k : nat,
             Z.of_nat k < size recordStarts ->
             hitBegin < at_ recordStarts (Z.of_nat k) ->
             exists j, in_record recordStarts hitBegin j).
  { induction k as [|k IH]; intros Hk Hlt.
    - simpl in Hlt. lia.
    - destruct (Z_le_dec (at_ recordStarts (Z.of_nat k)) hitBegin) as [Hle|Hgt].
      + exists (Z.of_nat k). unfold in_record.
        replace (Z.of_nat k + 1) with (Z.of_nat (S k)) by lia. lia.
      + apply IH; lia. }
  apply (Hk (Z.to_nat (size recordStarts - 1))).
  - lia.
  - rewrite Z2Nat.id by lia. apply Hb.
Qed.

Hypothesis increasing : strictly_increasing recordStarts.

Lemma in_record_unique i j :
  in_record recordStarts hitBegin i -> in_record recordStarts hitBegin j ->
  i = j.
Proof.
  intros (Hi0 & Hi1 & Hi) (Hj0 & Hj1 & Hj).
  destruct (Z.lt_trichotomy i j) as [Hlt|[Heq|Hgt]]; [|exact Heq|].
  - destruct (Z.eq_dec (i + 1) j) as [E|E].
    + subst j. lia.
    + pose proof (increasing (i + 1) j). lia.
  - destruct (Z.eq_dec (j + 1) i) as [E|E].
    + subst i. lia.
    + pose proof (increasing (j + 1) i). lia.
Qed.

Lemma in_record_between j :
  in_record recordStarts hitBegin j ->
  at_ recordStarts 0 <= hitBegin < at_ recordStarts (size recordStarts - 1).
Proof.
  intros (Hj0 & Hj1 & Hj). split.
  - destruct (Z.eq_dec j 0) as [->|E]; [lia|].
    pose proof (increasing 0 j). lia.
  - destruct (Z.eq_dec (j + 1) (size recordStarts - 1)) as [<-|E]; [lia|].
    pose proof (increasing (j + 1) (size recordStarts - 1)). lia.
Qed.

End FindSourceId.

Lemma at_head x (v : vector) : at_ (x :: v) 0 = x.
Proof. reflexivity. Qed.

Lemma at_tail x (v : vector) i : 0 <= i -> at_ (x :: v) (i + 1) = at_ v i.
Proof.
  intros Hi. unfold at_.
  replace (Z.to_nat (i + 1)) with (S (Z.to_nat i)) by lia. reflexivity.
Qed.

Lemma at_In (v : vector) i : 0 <= i < size v -> In (at_ v i) v.
Proof. intros Hi. unfold at_. apply nth_In. unfold size in Hi. lia. Qed.

(** A list sorted by [<] is strictly increasing in the sense of the
    indices. *)
Lemma strictly_increasing_of_sorted (v : vector) :
  StronglySorted Z.lt v -> strictly_increasing v.
Proof.
  induction 1 as [|x v Hsorted IH Hall]; intros i j Hi Hij Hj.
  - unfold size in Hj. simpl in Hj. lia.
  - rewrite size_cons in Hj.
    replace j with ((j - 1) + 1) by lia. rewrite at_tail by lia.
    destruct (Z.eq_dec i 0) as [->|Hne].
    + rewrite at_head. rewrite Forall_forall in Hall.
      apply Hall, at_In. lia.
    + replace i with ((i - 1) + 1) by lia. rewrite at_tail by lia.
      apply IH; lia.
Qed.

(** What [main] makes of an exception that leaves its outer [try] block. *)
Lemma main_catches `{TextIndex} (w : World) argv s e s' :
  main_body w argv s = (Throw e, s') ->
  exists s'',
    main w argv s =
      (Ret match e with
           | FmIndexException _ => 2
           | StdException _ => 3
           | ForeignThrow => 4
           end, s'')
    /\ out s'' = out s'.
Proof.
  intros Hbody. unfold main, try_catch. rewrite Hbody.
  destruct e; eexists; split; reflexivity.
Qed.

Lemma main_returns `{TextIndex} (w : World) argv s code s' :
  main_body w argv s = (Ret code, s') -> main w argv s = (Ret code, s').
Proof. intros Hbody. unfold main, try_catch. rewrite Hbody. reflexivity. Qed.

(** C3.  On a strictly increasing table of [R+1 >= 2] entries the lookup
    returns, for an offset [b] with [starts[0] <= b < starts[R]], the one
    index [i] with [starts[i] <= b < starts[i+1]]; for any other [b] it
    throws [FmIndexException], no row is written for the hit, and a run in
    which the exception reaches [main] ends with exit code 2. *)
Theorem findSourceId_correct (starts : vector) (b : Z) :
  2 <= size starts < SizeT.modulus ->
  strictly_increasing starts ->
  (at_ starts 0 <= b < at_ starts (size starts - 1) ->
   exists i, findSourceId starts b = Ret i
             /\ in_record starts b i
             /\ forall j, in_record starts b j -> j = i)
  /\ (~ (at_ starts 0 <= b < at_ starts (size starts - 1)) ->
      findSourceId starts b = Throw invalid_hit
      /\ (forall name id q s,
             locateQuery_hit starts name id q b s = (Throw invalid_hit, s))
      /\ (forall (I : TextIndex) (w : World) argv s s',
             main_body w argv s = (Throw invalid_hit, s') ->
             fst (main w argv s) = Ret 2)).
Proof.
  intros Hsize Hinc.
  assert (Hsize' : 1 <= size starts < SizeT.modulus) by lia.
  split.
  - intros Hb.
    destruct (findSourceId_first starts b Hsize')
      as [(r & Hr & Hin & _)|[_ Hnone]].
    + exists r. split; [exact Hr|]. split; [exact Hin|].
      intros j Hj. exact (in_record_unique starts b Hinc j r Hj Hin).
    + destruct (in_record_exists starts b Hsize' Hb) as [j Hj].
      destruct (Hnone j Hj).
  - intros Hout.
    assert (Hthrow : findSourceId starts b = Throw invalid_hit).
    { destruct (findSourceId_first starts b Hsize')
        as [(r & _ & Hin & _)|[Hthrow _]]; [|exact Hthrow].
      destruct Hout. exact (in_record_between starts b Hinc r Hin). }
    split; [exact Hthrow|]. split.
    + intros name id q s. unfold locateQuery_hit, bind, lift.
      rewrite Hthrow. reflexivity.
    + intros I w argv s s' Hbody.
      destruct (main_catches w argv s _ s' Hbody) as (s'' & -> & _).
      reflexivity.
Qed.

Lemma findSourceId_correct_witness :
  (exists i, findSourceId [0; 5; 10] 7 = Ret i
             /\ in_record [0; 5; 10] 7 i
             /\ forall j, in_record [0; 5; 10] 7 j -> j = i)
  /\ findSourceId [0; 5; 10] 10 = Throw invalid_hit.
Proof.
  assert (Hsize : 2 <= size [0; 5; 10] < SizeT.modulus)
    by (vm_compute; split; [discriminate|reflexivity]).
  assert (Hinc : strictly_increasing [0; 5; 10])
    by (apply strictly_increasing_of_sorted; repeat constructor; lia).
  split.
  - apply (proj1 (findSourceId_correct [0; 5; 10] 7 Hsize Hinc)).
    vm_compute. split; [discriminate|reflexivity].
  - apply (proj2 (findSourceId_correct [0; 5; 10] 10 Hsize Hinc)).
    vm_compute. intros [_ Hlt]. discriminate Hlt.
Defined.

(** C10.  On a table of at least two entries an index [i] returned by
    [findSourceId] satisfies [i + 1 < size], so the reads
    [recordStarts[sourceId]] and [recordStarts[sourceId + 1]] of
    [locateQuery] stay inside the vector.  On the empty table the loop bound
    [size() - 1] wraps to [2^64 - 1] and the first pass reads outside the
    vector. *)
Theorem findSourceId_in_bounds :
  (forall (starts : vector) (b i : Z),
      2 <= size starts < SizeT.modulus ->
      findSourceId starts b = Ret i ->
      0 <= i /\ i + 1 < size starts
      /\ vec_at starts i = Some (at_ starts i)
      /\ vec_at starts (SizeT.add i 1) = Some (at_ starts (i + 1)))
  /\ findSourceId_bound [] = SizeT.modulus - 1
  /\ (forall b, findSourceId [] b = Undefined).
Proof.
  split; [|split; [reflexivity|intros b; reflexivity]].
  intros starts b i Hsize Hret.
  assert (Hsize' : 1 <= size starts < SizeT.modulus) by lia.
  destruct (findSourceId_first starts b Hsize')
    as [(r & Hr & (H0 & H1 & _) & _)|[Hthrow _]].
  - rewrite Hr in Hret. injection Hret as <-.
    rewrite add_small by (unfold SizeT.in_range; lia).
    rewrite !vec_at_inside by lia. repeat split; lia.
  - rewrite Hthrow in Hret. discriminate.
Qed.

Lemma findSourceId_in_bounds_witness :
  0 <= 1 /\ 1 + 1 < size [0; 5; 10]
  /\ vec_at [0; 5; 10] 1 = Some (at_ [0; 5; 10] 1)
  /\ vec_at [0; 5; 10] (SizeT.add 1 1) = Some (at_ [0; 5; 10] (1 + 1)).
Proof.
  apply (proj1 findSourceId_in_bounds [0; 5; 10] 7 1).
  - vm_compute. split; [discriminate|reflexivity].
  - reflexivity.
Defined.

(** ** Sorting *)

Lemma sort_insert_In x l y : In y (sort_insert x l) <-> y = x \/ In y l.
Proof.
  induction l as [|z l IH]; simpl.
  - intuition.
  - destruct (x <=? z); simpl; [intuition|]. rewrite IH. intuition.
Qed.

Lemma sort_In l y : In y (sort l) <-> In y l.
Proof.
  induction l as [|x l IH]; simpl; [reflexivity|].
  rewrite sort_insert_In, IH. intuition.
Qed.

Lemma sort_insert_length x l : length (sort_insert x l) = S (length l).
Proof.
  induction l as [|z l IH]; simpl; [reflexivity|].
  destruct (x <=? z); simpl; [reflexivity|]. now rewrite IH.
Qed.

Lemma sort_length l : length (sort l) = length l.
Proof.
  induction l as [|x l IH]; simpl; [reflexivity|].
  now rewrite sort_insert_length, IH.
Qed.

Lemma sort_insert_sorted x l :
  StronglySorted Z.lt l -> ~ In x l -> StronglySorted Z.lt (sort_insert x l).
Proof.
  induction 1 as [|z l Hsorted IH Hall]; intros Hnotin; simpl.
  - constructor; constructor.
  - destruct (x <=? z) eqn:E.
    + apply Z.leb_le in E.
      assert (Hlt : x < z) by (simpl in Hnotin; lia).
      constructor; [constructor; assumption|].
      constructor; [exact Hlt|].
      rewrite Forall_forall in Hall |- *. intros y Hy. specialize (Hall y Hy). lia.
    + apply Z.leb_gt in E. constructor.
      * apply IH. simpl in Hnotin. tauto.
      * rewrite Forall_forall in Hall |- *. intros y Hy.
        apply sort_insert_In in Hy as [->|Hy]; [exact E|apply Hall, Hy].
Qed.

(** Sorting distinct offsets gives a strictly ascending list. *)
Lemma sort_sorted l : NoDup l -> StronglySorted Z.lt (sort l).
Proof.
  induction 1 as [|x l Hnotin Hnodup IH]; simpl; [constructor|].
  apply sort_insert_sorted; [exact IH|]. now rewrite sort_In.
Qed.

(** Two strictly ascending lists with the same elements are equal. *)
Lemma sorted_same_elements l1 :
  forall l2,
    StronglySorted Z.lt l1 -> StronglySorted Z.lt l2 ->
    (forall x, In x l1 <-> In x l2) -> l1 = l2.
Proof.
  induction l1 as [|a l1 IH]; intros [|b l2] H1 H2 Hsame.
  - reflexivity.
  - destruct (proj2 (Hsame b) (or_introl eq_refl)).
  - destruct (proj1 (Hsame a) (or_introl eq_refl)).
  - inversion H1 as [|? ? Hs1 Ha]; subst. inversion H2 as [|? ? Hs2 Hb]; subst.
    rewrite Forall_forall in Ha, Hb.
    assert (Hab : a = b).
    { destruct (proj1 (Hsame a) (or_introl eq_refl)) as [E|Hin]; [now symmetry|].
      destruct (proj2 (Hsame b) (or_introl eq_refl)) as [E|Hin']; [exact E|].
      specialize (Ha b Hin'). specialize (Hb a Hin). lia. }
    subst b. f_equal. apply IH; [assumption|assumption|].
    intros x. split; intros Hx.
    + destruct (proj1 (Hsame x) (or_intror Hx)) as [E|Hin]; [|exact Hin].
      subst x. specialize (Ha a Hx). lia.
    + destruct (proj2 (Hsame x) (or_intror Hx)) as [E|Hin]; [|exact Hin].
      subst x. specialize (Hb a Hx). lia.
Qed.

(** ** The scanning index meets the contract *)

Lemma prefix_eqb_firstn pat :
  forall T, prefix_eqb pat T = true <-> firstn (length pat) T = pat.
Proof.
  induction pat as [|p pat IH]; intros T; simpl.
  - split; reflexivity.
  - destruct T as [|t T]; simpl.
    + split; discriminate.
    + rewrite andb_true_iff, Ascii.eqb_eq, IH. split.
      * intros [-> ->]. reflexivity.
      * intros E. injection E as -> E. split; [reflexivity|exact E].
Qed.

Lemma firstn_eq_length {A} (pat T : list A) :
  firstn (length pat) T = pat -> (length pat <= length T)%nat.
Proof.
  intros E. apply (f_equal (@length A)) in E. rewrite length_firstn in E. lia.
Qed.

Lemma scan_In pat :
  forall suffix b acc x,
    In x (scan pat suffix b acc) <->
    In x acc
    \/ (b <= x <= b + Z.of_nat (length suffix)
        /\ prefix_eqb pat (skipn (Z.to_nat (x - b)) suffix) = true).
Proof.
  induction suffix as [|c suffix IH]; intros b acc x.
  - simpl scan. simpl length. rewrite skipn_nil.
    destruct (prefix_eqb pat []) eqn:E; simpl.
    + split.
      * intros [<-|Hin]; [right; split; [lia|reflexivity]|left; exact Hin].
      * intros [Hin|[Hx _]]; [right; exact Hin|left; lia].
    + split; [intros Hin; left; exact Hin|].
      intros [Hin|[_ Hx]]; [exact Hin|discriminate].
  - simpl scan. rewrite IH. simpl length.
    assert (Hskip : forall y, b + 1 <= y ->
               skipn (Z.to_nat (y - b)) (c :: suffix)
               = skipn (Z.to_nat (y - (b + 1))) suffix).
    { intros y Hy. replace (Z.to_nat (y - b)) with (S (Z.to_nat (y - (b + 1)))) by lia.
      reflexivity. }
    split.
    + intros [Hin|[Hx Hpre]].
      * destruct (prefix_eqb pat (c :: suffix)) eqn:E; [|left; exact Hin].
        destruct Hin as [<-|Hin]; [|left; exact Hin].
        right. split; [lia|]. rewrite Z.sub_diag. exact E.
      * right. split; [lia|]. rewrite Hskip by lia. exact Hpre.
    + intros [Hin|[Hx Hpre]].
      * left. destruct (prefix_eqb pat (c :: suffix)); [right|]; exact Hin.
      * destruct (Z.eq_dec x b) as [->|Hne].
        -- left. rewrite Z.sub_diag in Hpre. simpl skipn in Hpre.
           rewrite Hpre. left. reflexivity.
        -- right. split; [lia|]. rewrite <- Hskip by lia. exact Hpre.
Qed.

Lemma scan_NoDup pat :
  forall suffix b acc,
    NoDup acc -> (forall y, In y acc -> y < b) ->
    NoDup (scan pat suffix b acc).
Proof.
  induction suffix as [|c suffix IH]; intros b acc Hnodup Hbelow.
  - simpl. destruct (prefix_eqb pat []); [|exact Hnodup].
    constructor; [|exact Hnodup]. intros Hin. specialize (Hbelow b Hin). lia.
  - simpl. apply IH.
    + destruct (prefix_eqb pat (c :: suffix)); [|exact Hnodup].
      constructor; [|exact Hnodup]. intros Hin. specialize (Hbelow b Hin). lia.
    + intros y Hy. destruct (prefix_eqb pat (c :: suffix)).
      * destruct Hy as [<-|Hy]; [lia|]. specialize (Hbelow y Hy). lia.
      * specialize (Hbelow y Hy). lia.
Qed.

Lemma ScanIndex_locate (T pat : bytes) b :
  In b (locate (TextIndex := ScanIndex) T pat) <-> occurs_at T pat b.
Proof.
  simpl locate. rewrite scan_In. unfold occurs_at. rewrite Z.sub_0_r.
  rewrite prefix_eqb_firstn. split.
  - intros [[]|[Hb Hpre]]. split; [lia|]. split; [|exact Hpre].
    apply firstn_eq_length in Hpre. rewrite length_skipn in Hpre. lia.
  - intros (H0 & Hlen & Hpre). right. split; [lia|exact Hpre].
Qed.

Lemma ScanIndex_indexes (T : bytes) : Indexes (H := ScanIndex) T T.
Proof.
  split.
  - intros pat b. apply ScanIndex_locate.
  - intros pat b. apply ScanIndex_locate.
  - intros pat. simpl locate. apply scan_NoDup; [constructor|intros y []].
Qed.

(** ** Terminators and record starts *)

Lemma occurs_at_LF_cons c (T : bytes) y :
  occurs_at (c :: T) [LF] y <->
  (y = 0 /\ c = LF) \/ (1 <= y /\ occurs_at T [LF] (y - 1)).
Proof.
  unfold occurs_at. simpl length. split.
  - intros (H0 & Hlen & E). destruct (Z.eq_dec y 0) as [->|Hne].
    + left. simpl in E. injection E as ->. split; reflexivity.
    + right. split; [lia|]. split; [lia|]. split; [lia|].
      replace (Z.to_nat y) with (S (Z.to_nat (y - 1))) in E by lia. exact E.
  - intros [[-> ->]|(H1 & H0 & Hlen & E)].
    + split; [lia|]. split; [lia|reflexivity].
    + split; [lia|]. split; [lia|].
      replace (Z.to_nat y) with (S (Z.to_nat (y - 1))) by lia. exact E.
Qed.

Lemma terminator_offsets_In (T : bytes) :
  forall b x, In x (terminator_offsets T b) <-> occurs_at T [LF] (x - b).
Proof.
  induction T as [|c T IH]; intros b x.
  - simpl. unfold occurs_at. simpl. split; [intros []|intros (? & ? & ?); lia].
  - rewrite occurs_at_LF_cons. simpl.
    replace (x - b - 1) with (x - (b + 1)) by lia.
    destruct (Ascii.eqb c LF) eqn:E.
    + apply Ascii.eqb_eq in E. simpl. rewrite IH. split.
      * intros [<-|Hin]; [left; split; [lia|exact E]|].
        right. split; [|exact Hin]. destruct Hin as (H0 & _). lia.
      * intros [[Hx _]|[_ Hin]]; [left; lia|right; exact Hin].
    + apply Ascii.eqb_neq in E. rewrite IH. split.
      * intros Hin. right. split; [|exact Hin]. destruct Hin as (H0 & _). lia.
      * intros [[_ Hc]|[_ Hin]]; [contradiction|exact Hin].
Qed.

Lemma terminator_offsets_sorted (T : bytes) :
  forall b, StronglySorted Z.lt (terminator_offsets T b).
Proof.
  induction T as [|c T IH]; intros b; simpl; [constructor|].
  destruct (Ascii.eqb c LF); [|apply IH].
  constructor; [apply IH|].
  rewrite Forall_forall. intros x Hx.
  apply terminator_offsets_In in Hx as (H0 & _). lia.
Qed.

Lemma terminator_offsets_length (T : bytes) :
  forall b, Z.of_nat (length (terminator_offsets T b)) = num_terminators T.
Proof.
  unfold num_terminators.
  induction T as [|c T IH]; intros b; simpl; [reflexivity|].
  destruct (Ascii.eqb c LF); simpl length; [|apply IH].
  specialize (IH (b + 1)). lia.
Qed.

(** The sorted result of locating the terminator is the ascending list of
    its offsets. *)
Lemma sorted_line_ends `{TextIndex} (idx : Index) (T : bytes) :
  Indexes idx T -> sort (locate idx [LF]) = terminator_offsets T 0.
Proof.
  intros [Hsound Hcomplete Hnodup].
  apply sorted_same_elements.
  - apply sort_sorted, Hnodup.
  - apply terminator_offsets_sorted.
  - intros x. rewrite sort_In, terminator_offsets_In, Z.sub_0_r.
    split; [apply Hsound|apply Hcomplete].
Qed.

Lemma vec_set_inside (v : vector) i x :
  0 <= i < size v ->
  vec_set v i x = Some (firstn (Z.to_nat i) v ++ x :: skipn (S (Z.to_nat i)) v).
Proof.
  intros [H0 H1]. unfold vec_set.
  now rewrite (proj2 (Z.leb_le _ _) H0), (proj2 (Z.ltb_lt _ _) H1).
Qed.

Lemma size_repeat x n : size (repeat x n) = Z.of_nat n.
Proof. unfold size. now rewrite repeat_length. Qed.

Lemma size_map f (v : vector) : size (map f v) = size v.
Proof. unfold size. now rewrite length_map. Qed.

Section FillLoop.

Variable lineEndLocations : vector.

Hypothesis ends_small :
  Forall (fun e => SizeT.in_range (e + 1)) lineEndLocations.
Hypothesis count_fits : size lineEndLocations + 1 <= INT_MAX.

Let n := length lineEndLocations.

(** The table after [k] passes of the loop. *)
Let partial (k : nat) : vector :=
  (0 :: map (fun e => e + 1) (firstn k lineEndLocations))
    ++ repeat 0 (n - k).

Lemma partial_size k : (k <= n)%nat -> size (partial k) = Z.of_nat n + 1.
Proof.
  intros Hk. unfold partial. rewrite size_app, size_cons, size_map, size_repeat.
  unfold size. rewrite length_firstn. fold n. lia.
Qed.

Lemma partial_step k :
  (k < n)%nat ->
  vec_set (partial k) (Z.of_nat k + 1)
    (SizeT.add (at_ lineEndLocations (Z.of_nat k)) 1)
  = Some (partial (S k)).
Proof.
  intros Hk.
  rewrite vec_set_inside by (rewrite partial_size; lia).
  f_equal.
  replace (Z.to_nat (Z.of_nat k + 1)) with (S k) by lia.
  assert (Hlen : length (map (fun e => e + 1) (firstn k lineEndLocations)) = k).
  { rewrite length_map, length_firstn. fold n. lia. }
  unfold partial.
  set (done := map (fun e => e + 1) (firstn k lineEndLocations)) in *.
  change ((0 :: done) ++ repeat 0 (n - k)) with (0 :: (done ++ repeat 0 (n - k))).
  rewrite firstn_cons.
  rewrite firstn_app, Hlen, Nat.sub_diag, firstn_O, app_nil_r.
  rewrite firstn_all2 by lia.
  change (skipn (S (S k)) (0 :: done ++ repeat 0 (n - k)))
    with (skipn (S k) (done ++ repeat 0 (n - k))).
  rewrite skipn_app, Hlen.
  rewrite (skipn_all2 done) by lia.
  replace (S k - k)%nat with 1%nat by lia.
  replace (n - k)%nat with (S (n - S k)) by lia.
  change (skipn 1 (repeat 0 (S (n - S k)))) with (repeat 0 (n - S k)).
  change ([] ++ repeat 0 (n - S k)) with (repeat 0 (n - S k)).
  assert (Hnth : firstn (S k) lineEndLocations
                 = firstn k lineEndLocations ++ [at_ lineEndLocations (Z.of_nat k)]).
  { unfold at_. rewrite Nat2Z.id.
    clear -Hk. subst n. revert k Hk.
    induction lineEndLocations as [|e l IH]; intros k Hk; [simpl in Hk; lia|].
    destruct k as [|k]; [reflexivity|].
    simpl in Hk. rewrite firstn_cons. rewrite (IH k) by lia. reflexivity. }
  rewrite Hnth, map_app. simpl map.
  assert (Hadd : SizeT.add (at_ lineEndLocations (Z.of_nat k)) 1
                 = at_ lineEndLocations (Z.of_nat k) + 1).
  { apply add_small. rewrite Forall_forall in ends_small.
    apply ends_small, at_In. unfold size. fold n. lia. }
  rewrite Hadd. unfold done. simpl app. rewrite <- app_assoc. reflexivity.
Qed.

Lemma fill_loop_partial (fuel : nat) :
  forall k,
    (k <= n)%nat -> (n - k < fuel)%nat ->
    fill_loop fuel lineEndLocations (partial k) (Z.of_nat k + 1)
    = Ret (0 :: map (fun e => e + 1) lineEndLocations).
Proof.
  induction fuel as [|fuel IH]; intros k Hk Hfuel; [lia|].
  simpl. rewrite partial_size by exact Hk.
  destruct (Z.of_nat k + 1 <? Z.of_nat n + 1) eqn:E.
  - apply Z.ltb_lt in E.
    replace (Z.of_nat k + 1 - 1) with (Z.of_nat k) by lia.
    rewrite vec_at_inside by (unfold size; fold n; lia).
    rewrite partial_step by lia.
    assert (Hint : (Z.of_nat k + 1 <? INT_MAX) = true).
    { apply Z.ltb_lt. unfold size in count_fits. fold n in count_fits. lia. }
    rewrite Hint.
    replace (Z.of_nat k + 1 + 1) with (Z.of_nat (S k) + 1) by lia.
    apply IH; lia.
  - apply Z.ltb_ge in E. assert (k = n) by lia. subst k.
    unfold partial. rewrite Nat.sub_diag. simpl repeat. rewrite app_nil_r.
    rewrite firstn_all2 by (fold n; lia). reflexivity.
Qed.

End FillLoop.

Lemma at_map f (v : vector) i :
  0 <= i < size v -> at_ (map f v) i = f (at_ v i).
Proof.
  intros Hi. unfold at_.
  rewrite (nth_indep (map f v) 0 (f 0)) by (rewrite length_map; unfold size in Hi; lia).
  apply map_nth.
Qed.

Lemma In_at (v : vector) x :
  In x v -> exists j, 0 <= j < size v /\ at_ v j = x.
Proof.
  intros Hin. destruct (In_nth v x 0 Hin) as (k & Hk & E).
  exists (Z.of_nat k). unfold at_, size. rewrite Nat2Z.id. split; [lia|exact E].
Qed.

Lemma occurs_at_end (T : bytes) :
  occurs_at T [LF] (Z.of_nat (length T) - 1) <-> exists T', T = T' ++ [LF].
Proof.
  unfold occurs_at. simpl length. split.
  - intros (H0 & _ & E).
    exists (firstn (length T - 1) T).
    rewrite <- (firstn_skipn (length T - 1) T) at 1. f_equal.
    replace (Z.to_nat (Z.of_nat (length T) - 1)) with (length T - 1)%nat in E by lia.
    rewrite <- E. symmetry. apply firstn_all2. rewrite length_skipn. lia.
  - intros [T' ->]. rewrite length_app. simpl length.
    split; [lia|]. split; [lia|].
    replace (Z.to_nat (Z.of_nat (length T' + 1) - 1)) with (length T' + 0)%nat by lia.
    rewrite skipn_app, Nat.add_0_r, skipn_all, Nat.sub_diag. reflexivity.
Qed.

Lemma map_succ_sorted (l : list Z) :
  StronglySorted Z.lt l -> StronglySorted Z.lt (map (fun e => e + 1) l).
Proof.
  induction 1 as [|x l Hsorted IH Hall]; simpl; constructor; [exact IH|].
  rewrite Forall_forall in Hall |- *. intros y Hy.
  apply in_map_iff in Hy as (z & <- & Hz). specialize (Hall z Hz). lia.
Qed.

Section RecordStarts.

Context `{TextIndex}.
Variable fmIndex : Index.
Variable T : bytes.

Hypothesis indexed : Indexes fmIndex T.
Hypothesis text_fits : Z.of_nat (length T) < SizeT.modulus.
Hypothesis count_fits : num_terminators T + 1 <= INT_MAX.

Let ends := terminator_offsets T 0.
Let N := num_terminators T.

Lemma ends_size : size ends = N.
Proof. apply terminator_offsets_length. Qed.

Lemma ends_bounds e : In e ends -> 0 <= e /\ e + 1 <= Z.of_nat (length T).
Proof.
  intros Hin. apply terminator_offsets_In in Hin as (H0 & Hlen & _).
  simpl length in Hlen. lia.
Qed.

(** The table built from the index. *)
Lemma build_recordStarts_value :
  build_recordStarts fmIndex = Ret (0 :: map (fun e => e + 1) ends).
Proof.
  unfold build_recordStarts.
  rewrite (sorted_line_ends fmIndex T indexed). fold ends.
  assert (Hint : INT_MAX < SizeT.modulus) by reflexivity.
  pose proof ends_size as Hsize. pose proof (size_nonneg ends) as Hnn.
  rewrite add_small by (unfold SizeT.in_range; lia).
  unfold resize. simpl firstn. simpl length. rewrite Nat.sub_0_r.
  replace (Z.to_nat (size ends + 1)) with (S (length ends)) by (unfold size; lia).
  simpl repeat. rewrite firstn_nil. simpl app.
  assert (Hset : vec_set (0 :: repeat 0 (length ends)) 0 0
                 = Some (0 :: repeat 0 (length ends))).
  { rewrite vec_set_inside; [reflexivity|].
    rewrite size_cons, size_repeat. lia. }
  rewrite Hset.
  assert (Hshape :
           (0 :: map (fun e => e + 1) (firstn 0 ends))
             ++ repeat 0 (length ends - 0)
           = 0 :: repeat 0 (length ends))
    by (rewrite Nat.sub_0_r; reflexivity).
  rewrite <- Hshape.
  apply (fill_loop_partial ends).
  - rewrite Forall_forall. intros e He.
    apply ends_bounds in He. cbv beta. unfold SizeT.in_range. lia.
  - unfold N in Hsize. lia.
  - lia.
  - rewrite Hshape. simpl length. rewrite repeat_length. lia.
Qed.

Let starts := 0 :: map (fun e => e + 1) ends.

Lemma starts_size : size starts = N + 1.
Proof. unfold starts. now rewrite size_cons, size_map, ends_size. Qed.

Lemma starts_sorted : StronglySorted Z.lt starts.
Proof.
  unfold starts. constructor.
  - apply map_succ_sorted, terminator_offsets_sorted.
  - rewrite Forall_forall. intros y Hy.
    apply in_map_iff in Hy as (e & <- & He). apply ends_bounds in He. lia.
Qed.

Lemma starts_entry i :
  1 <= i <= N -> at_ starts i = at_ ends (i - 1) + 1.
Proof.
  intros Hi. unfold starts.
  replace i with ((i - 1) + 1) at 1 by lia. rewrite at_tail by lia.
  apply at_map. rewrite ends_size. lia.
Qed.

(** The last entry is the length of the text exactly when the text is
    empty or its last byte is a terminator. *)
Lemma starts_last :
  at_ starts N = Z.of_nat (length T) <-> T = [] \/ exists T', T = T' ++ [LF].
Proof.
  pose proof ends_size as Hsize. pose proof (size_nonneg ends) as Hnn.
  destruct (Z.eq_dec N 0) as [E0|Hpos].
  - rewrite E0. unfold starts. rewrite at_head. split.
    + intros E. left. destruct T; [reflexivity|simpl in E; lia].
    + intros [->|Hend]; [reflexivity|].
      apply occurs_at_end in Hend.
      assert (Hin : In (Z.of_nat (length T) - 1) ends)
        by (apply terminator_offsets_In; rewrite Z.sub_0_r; exact Hend).
      destruct ends as [|e rest]; [destruct Hin|]. rewrite size_cons in Hsize.
      pose proof (size_nonneg rest). lia.
  - rewrite starts_entry by lia.
    assert (Hlast : In (at_ ends (N - 1)) ends) by (apply at_In; lia).
    split.
    + intros E. right. apply occurs_at_end.
      apply terminator_offsets_In in Hlast. rewrite Z.sub_0_r in Hlast.
      replace (Z.of_nat (length T) - 1) with (at_ ends (N - 1)) by lia.
      exact Hlast.
    + intros [->|Hend].
      * unfold ends in Hsize. simpl in Hsize. unfold size in Hsize. simpl in Hsize. lia.
      * apply occurs_at_end in Hend.
        assert (Hin : In (Z.of_nat (length T) - 1) ends)
          by (apply terminator_offsets_In; rewrite Z.sub_0_r; exact Hend).
        apply In_at in Hin as (j & Hj & Ej).
        apply ends_bounds in Hlast.
        pose proof (strictly_increasing_of_sorted ends
                      (terminator_offsets_sorted T 0)) as Hinc.
        destruct (Z.eq_dec j (N - 1)) as [->|Hne]; [lia|].
        specialize (Hinc j (N - 1)). lia.
Qed.

End RecordStarts.

(** C2 (amended).  For a reference text [T] with [N] terminator bytes
    (the text shorter than [2^64], [N + 1] within the range of the [int]
    loop counter), the table built when no cached [.idx] file loads has
    [N + 1] entries, is strictly increasing, starts with 0, and its entry
    [i >= 1] is the offset of the [(i-1)]-th terminator plus one.  Its last
    entry is [length T] exactly when [T] is empty or ends with a terminator;
    otherwise it is the offset after the last terminator. *)
Theorem recordStarts_built `{TextIndex} (w : World) (fmIndex : Index)
    (T : bytes) (referenceFile : string) (s : State) :
  Indexes fmIndex T ->
  Z.of_nat (length T) < SizeT.modulus ->
  num_terminators T + 1 <= INT_MAX ->
  load_plain_array w (referenceFile ++ ".idx") = None ->
  exists starts,
    build_recordStarts fmIndex = Ret starts
    /\ fst (getRecordStarts w fmIndex referenceFile s)
       = (if store_plain_array w (referenceFile ++ ".idx") then Ret starts
          else Throw (FmIndexException
                        ("Could not store record index: "
                           ++ (referenceFile ++ ".idx"))))
    /\ size starts = num_terminators T + 1
    /\ strictly_increasing starts
    /\ at_ starts 0 = 0
    /\ (forall i, 1 <= i <= num_terminators T ->
                  at_ starts i = at_ (terminator_offsets T 0) (i - 1) + 1)
    /\ (at_ starts (num_terminators T) = Z.of_nat (length T)
        <-> T = [] \/ exists T', T = T' ++ [LF]).
Proof.
  intros Hidx Hfits Hcount Hload.
  exists (0 :: map (fun e => e + 1) (terminator_offsets T 0)).
  pose proof (build_recordStarts_value fmIndex T Hidx Hfits Hcount) as Hbuild.
  split; [exact Hbuild|]. split.
  - unfold getRecordStarts. rewrite Hload. unfold bind, log, lift.
    rewrite Hbuild.
    destruct (store_plain_array w (referenceFile ++ ".idx")); reflexivity.
  - split; [apply starts_size|].
    split; [apply strictly_increasing_of_sorted, starts_sorted|].
    split; [reflexivity|].
    split; [apply starts_entry|].
    exact (starts_last fmIndex T Hidx Hfits Hcount).
Qed.

Lemma recordStarts_built_witness :
  exists starts,
    build_recordStarts (H := ScanIndex) two_records = Ret starts
    /\ fst (getRecordStarts (first_run two_records [] (fun _ => 0))
              two_records "ref" (initial_state []))
       = Ret starts
    /\ size starts = 3
    /\ strictly_increasing starts
    /\ at_ starts 0 = 0
    /\ (forall i, 1 <= i <= 2 ->
                  at_ starts i = at_ (terminator_offsets two_records 0) (i - 1) + 1)
    /\ (at_ starts 2 = 10 <-> two_records = [] \/ exists T', two_records = T' ++ [LF]).
Proof.
  apply (recordStarts_built (first_run two_records [] (fun _ => 0))
           two_records two_records "ref" (initial_state [])).
  - apply ScanIndex_indexes.
  - reflexivity.
  - vm_compute. discriminate.
  - reflexivity.
Defined.

(** C2 as stated fails on a text whose last record has no terminator: for
    [A\nB], with one terminator, the table is [[0; 2]] and its last entry is
    2, not the length 3. *)
Lemma recordStarts_last_counterexample :
  let T := bytes_of "A" ++ [LF] ++ bytes_of "B" in
  Indexes (H := ScanIndex) T T
  /\ num_terminators T = 1
  /\ build_recordStarts (H := ScanIndex) T = Ret [0; 2]
  /\ at_ [0; 2] (num_terminators T) <> Z.of_nat (length T).
Proof.
  split; [apply ScanIndex_indexes|].
  split; [reflexivity|]. split; [reflexivity|]. vm_compute. discriminate.
Qed.

(** ** Rows of a query *)

Lemma add_rows_nil s : add_rows s [] = s.
Proof. destruct s. unfold add_rows. simpl. now rewrite app_nil_r. Qed.

Lemma add_rows_app s rows rows' :
  add_rows (add_rows s rows) rows' = add_rows s (rows ++ rows').
Proof. unfold add_rows. simpl. now rewrite app_assoc. Qed.

Lemma findSourceId_empty b : findSourceId [] b = Undefined.
Proof. reflexivity. Qed.

Section LocateQuery.

Variable T : bytes.
Variable starts : vector.
Variable name : string.
Variable qid : Z.
Variable q : bytes.

Hypothesis text_fits : Z.of_nat (length T) < SizeT.modulus.
Hypothesis size_fits : size starts < SizeT.modulus.
Hypothesis starts_values : size_t_vector starts.

(** One pass of the loop of [locateQuery]: a row that is right for the
    hit, or the exception of [findSourceId] and no row; on the empty table
    the read outside it. *)
Lemma locateQuery_hit_row b s :
  occurs_at T q b ->
  (exists row, locateQuery_hit starts name qid q b s = (Ret tt, add_rows s [row])
               /\ hit_row_ok T starts name qid q b row)
  \/ (locateQuery_hit starts name qid q b s = (Throw invalid_hit, s)
      /\ forall j, ~ in_record starts b j)
  \/ (locateQuery_hit starts name qid q b s = (Undefined, s)
      /\ starts = []).
Proof.
  intros (Hb0 & Hblen & Hocc).
  unfold locateQuery_hit, bind, lift.
  destruct (Z.eq_dec (size starts) 0) as [Hempty|Hnonempty].
  { right. right. rewrite (size_zero_nil starts Hempty).
    split; reflexivity. }
  assert (Hsize : 1 <= size starts < SizeT.modulus)
    by (pose proof (size_nonneg starts); lia).
  destruct (findSourceId_first starts b Hsize)
    as [(r & -> & Hin & _)|[-> Hnone]]; [left|right; left; split; [reflexivity|exact Hnone]].
  destruct Hin as (Hr0 & Hr1 & Hlo & Hhi).
  rewrite add_small by (unfold SizeT.in_range; lia).
  rewrite !vec_at_inside by lia. unfold lift_access, ret, print.
  eexists. split; [reflexivity|].
  pose proof (at_in_range starts r starts_values) as [Hlo0 _].
  pose proof (at_in_range starts (r + 1) starts_values) as [_ Hhi1].
  pose proof (Nat2Z.is_nonneg (length q)) as Hq.
  assert (Elen : SizeT.sub (SizeT.sub (at_ starts (r + 1)) (at_ starts r)) 1
                 = at_ starts (r + 1) - at_ starts r - 1).
  { rewrite (sub_small (at_ starts (r + 1))) by (unfold SizeT.in_range; lia).
    apply sub_small. unfold SizeT.in_range. lia. }
  assert (Ebegin : SizeT.sub b (at_ starts r) = b - at_ starts r)
    by (apply sub_small; unfold SizeT.in_range; lia).
  assert (Eend : SizeT.sub (SizeT.add b (Z.of_nat (length q))) (at_ starts r)
                 = b + Z.of_nat (length q) - at_ starts r).
  { rewrite add_small by (unfold SizeT.in_range; lia).
    apply sub_small. unfold SizeT.in_range. lia. }
  unfold hit_row_ok. simpl. rewrite Elen, Ebegin, Eend.
  repeat split; try lia.
  unfold slice.
  replace (at_ starts r + (b + Z.of_nat (length q) - at_ starts r)
           - (at_ starts r + (b - at_ starts r))) with (Z.of_nat (length q)) by lia.
  replace (at_ starts r + (b - at_ starts r)) with b by lia.
  rewrite Nat2Z.id. exact Hocc.
Qed.

(** The loop writes right rows for the hits in order, up to the first hit
    that no record holds; it stops there. *)
Lemma locateQuery_loop_rows locations :
  forall s,
    Forall (occurs_at T q) locations ->
    exists rows,
      snd (locateQuery_loop starts name qid q locations s) = add_rows s rows
      /\ Forall2 (hit_row_ok T starts name qid q)
           (firstn (length rows) locations) rows
      /\ (length rows <= length locations)%nat
      /\ (fst (locateQuery_loop starts name qid q locations s) = Ret tt ->
          length rows = length locations)
      /\ fst (locateQuery_loop starts name qid q locations s) <> OutOfFuel
      /\ ((forall b, In b locations -> exists j, in_record starts b j) ->
          fst (locateQuery_loop starts name qid q locations s) = Ret tt).
Proof.
  induction locations as [|b rest IH]; intros s Hocc.
  - exists []. simpl. rewrite add_rows_nil.
    repeat split; try constructor; try reflexivity. discriminate.
  - inversion Hocc as [|? ? Hb Hrest]; subst.
    simpl locateQuery_loop. unfold bind.
    destruct (locateQuery_hit_row b s Hb)
      as [(row & Ehit & Hrow)|[[Ehit Hnone]|[Ehit Hempty]]];
      rewrite Ehit; cbv beta iota.
    + destruct (IH (add_rows s [row]) Hrest)
        as (rows & Hstate & Hrows & Hlen & Hret & Hfuel & Hall).
      exists (row :: rows). rewrite Hstate, add_rows_app. simpl.
      repeat split.
      * constructor; assumption.
      * lia.
      * intros E. f_equal. apply Hret, E.
      * exact Hfuel.
      * intros Hrec. apply Hall. intros b' Hb'. apply Hrec. right. exact Hb'.
    + exists []. simpl. rewrite add_rows_nil.
      repeat split; try constructor; try discriminate; try lia.
      intros Hrec. destruct (Hrec b (or_introl eq_refl)) as [j Hj].
      destruct (Hnone j Hj).
    + exists []. simpl. rewrite add_rows_nil.
      repeat split; try constructor; try discriminate; try lia.
      intros Hrec. destruct (Hrec b (or_introl eq_refl)) as [j (Hj0 & Hj1 & _)].
      subst starts. unfold size in Hj1. simpl in Hj1. lia.
Qed.

End LocateQuery.

Lemma Forall2_In_left {A B} (R : A -> B -> Prop) l1 l2 a :
  Forall2 R l1 l2 -> In a l1 -> exists b, In b l2 /\ R a b.
Proof.
  induction 1 as [|x y l1 l2 Hxy Hrest IH]; intros Hin; [destruct Hin|].
  destruct Hin as [->|Hin].
  - exists y. split; [left; reflexivity|exact Hxy].
  - destruct (IH Hin) as (b & Hb & Hab). exists b. split; [right; exact Hb|exact Hab].
Qed.

(** C1.  With an index over [T] (shorter than [2^64]) and any table of
    [size_t] values, the rows [locateQuery] writes for a query [q] answer,
    one by one and in ascending order, the offsets [b] that [locate]
    returned: record [r] with [starts[r] <= b < starts[r+1]], length
    [starts[r+1] - starts[r] - 1], begin [b - starts[r]], end
    [b + length q - starts[r]]; so end minus begin is [length q] and the
    text between them is [q].  When the call returns there is such a row for
    every offset, and it does return when the table runs from 0 to
    [length T] and the query is not empty. *)
Theorem locateQuery_rows `{TextIndex} (fmIndex : Index) (T : bytes)
    (starts : vector) (name : string) (qid : Z) (q : bytes) (s : State) :
  Indexes fmIndex T ->
  Z.of_nat (length T) < SizeT.modulus ->
  size starts < SizeT.modulus ->
  size_t_vector starts ->
  exists rows,
    snd (locateQuery fmIndex starts name qid q s) = add_rows s rows
    /\ Forall2 (hit_row_ok T starts name qid q)
         (firstn (length rows) (sort (locate fmIndex q))) rows
    /\ (forall n, fst (locateQuery fmIndex starts name qid q s) = Ret n ->
                  n = size (locate fmIndex q)
                  /\ length rows = length (locate fmIndex q)
                  /\ forall b, In b (locate fmIndex q) ->
                               exists row, In row rows
                                           /\ hit_row_ok T starts name qid q b row)
    /\ fst (locateQuery fmIndex starts name qid q s) <> OutOfFuel
    /\ (q <> [] -> at_ starts 0 = 0 ->
        at_ starts (size starts - 1) = Z.of_nat (length T) ->
        fst (locateQuery fmIndex starts name qid q s)
        = Ret (size (locate fmIndex q))).
Proof.
  intros Hidx Hfits Hsize Hvalues.
  assert (Hocc : Forall (occurs_at T q) (sort (locate fmIndex q))).
  { rewrite Forall_forall. intros b Hb.
    apply (locate_sound _ _ Hidx q b), (proj1 (sort_In _ _)), Hb. }
  destruct (locateQuery_loop_rows T starts name qid q Hfits Hsize Hvalues
              (sort (locate fmIndex q)) s Hocc)
    as (rows & Hstate & Hrows & Hlen & Hret & Hfuel & Hall).
  assert (Hsortsize : size (sort (locate fmIndex q)) = size (locate fmIndex q))
    by (unfold size; now rewrite sort_length).
  unfold locateQuery, bind, ret.
  destruct (locateQuery_loop starts name qid q (sort (locate fmIndex q)) s)
    as [o s'] eqn:Eloop.
  simpl in Hstate, Hret, Hfuel, Hall.
  exists rows. destruct o as [[]| | |]; simpl.
  - specialize (Hret eq_refl). rewrite sort_length in Hret.
    split; [exact Hstate|]. split; [exact Hrows|]. split.
    + intros n E. injection E as <-. split; [exact Hsortsize|]. split; [exact Hret|].
      intros b Hb. rewrite Hret, <- sort_length, firstn_all in Hrows.
      apply (Forall2_In_left _ _ _ b Hrows), (proj2 (sort_In _ _)), Hb.
    + split; [discriminate|]. intros _ _ _. now rewrite Hsortsize.
  - split; [exact Hstate|]. split; [exact Hrows|].
    split; [intros n E; discriminate|]. split; [discriminate|].
    intros Hq H0 Hlast. exfalso.
    assert (Hbad : @Throw unit e = Ret tt); [|discriminate].
    apply Hall. intros b Hb. rewrite Forall_forall in Hocc.
    destruct (Hocc b Hb) as (Hb0 & Hblen & _).
    assert (0 < Z.of_nat (length q)) by (destruct q; [contradiction|simpl; lia]).
    destruct (Z.eq_dec (size starts) 0) as [E0|Hne].
    + rewrite E0, (size_zero_nil starts E0) in Hlast.
      unfold at_ in Hlast. simpl in Hlast. lia.
    + apply in_record_exists; pose proof (size_nonneg starts); lia.
  - split; [exact Hstate|]. split; [exact Hrows|].
    split; [intros n E; discriminate|]. split; [discriminate|].
    intros Hq H0 Hlast. exfalso.
    assert (Hbad : @Undefined unit = Ret tt); [|discriminate].
    apply Hall. intros b Hb. rewrite Forall_forall in Hocc.
    destruct (Hocc b Hb) as (Hb0 & Hblen & _).
    assert (0 < Z.of_nat (length q)) by (destruct q; [contradiction|simpl; lia]).
    destruct (Z.eq_dec (size starts) 0) as [E0|Hne].
    + rewrite E0, (size_zero_nil starts E0) in Hlast.
      unfold at_ in Hlast. simpl in Hlast. lia.
    + apply in_record_exists; pose proof (size_nonneg starts); lia.
  - destruct Hfuel. reflexivity.
Qed.

Lemma locateQuery_rows_witness :
  exists rows,
    snd (locateQuery (H := ScanIndex) two_records [0; 5; 10] "stdin" 0
           (bytes_of "ACG") (initial_state []))
    = add_rows (initial_state []) rows
    /\ length rows = 2%nat
    /\ forall b, In b (locate (TextIndex := ScanIndex) two_records (bytes_of "ACG")) ->
                 exists row, In row rows
                   /\ hit_row_ok two_records [0; 5; 10] "stdin" 0
                        (bytes_of "ACG") b row.
Proof.
  destruct (locateQuery_rows (H := ScanIndex) two_records two_records
              [0; 5; 10] "stdin" 0 (bytes_of "ACG") (initial_state []))
    as (rows & Hstate & _ & Hret & _).
  - apply ScanIndex_indexes.
  - reflexivity.
  - reflexivity.
  - repeat constructor; vm_compute; discriminate.
  - exists rows. split; [exact Hstate|].
    destruct (Hret 2 eq_refl) as (_ & Hlen & Hall).
    split; [exact Hlen|exact Hall].
Defined.

(** ** Exit codes *)


(** Usage errors: an exception of the program's own in the argument phase
    gives exit code 1 and nothing else is done. *)
Lemma usage_error_exit_code `{TextIndex} (w : World) argv s what :
  parseArgs w argv = Throw (FmIndexException what)
  \/ (exists i dir, parseArgs w argv = Ret (i, dir)
                    /\ Z.of_nat (length argv) - i < 1
                    /\ what = "Missing arguments."%string) ->
  main w argv s
  = (Ret 1, {| out := out s;
               err := err s ++ [ErrorLine what; BlankLine; UsageText];
               polls := polls s; cin := cin s |}).
Proof.
  intros Hargs.
  assert (Hinner : main_args w argv s
                   = (Ret None,
                      {| out := out s;
                         err := ((err s ++ [ErrorLine what]) ++ [BlankLine])
                                  ++ [UsageText];
                         polls := polls s; cin := cin s |})).
  { unfold main_args, try_catch, bind, lift.
    destruct Hargs as [->|(i & dir & -> & Hlt & ->)].
    - reflexivity.
    - apply Z.ltb_lt in Hlt. rewrite Hlt. reflexivity. }
  unfold main, try_catch, main_body, bind. rewrite Hinner.
  unfold ret. rewrite <- !app_assoc. reflexivity.
Qed.

(** The answer of [store_to_file] has no part in a run. *)
Lemma main_ignores_store_index (I : TextIndex) (w : World) answer argv :
  main (with_store_index w answer) argv = main w argv.
Proof. destruct w. reflexivity. Qed.

(** C4.  The claim fails for the index file: [buildIndex] drops the
    result of [store_to_file], so a run is the same whatever that result is
    ([main_ignores_store_index]).  In the run [index_unwritable] the index
    cannot be written; the run goes on, answers the query and exits with
    0.  (The [.idx] file is checked: see [recordStarts_built].) *)
Theorem index_store_failure_not_fatal :
  load_index index_unwritable "ref.fm9" = None
  /\ store_index index_unwritable "ref.fm9" = false
  /\ fst (main index_unwritable ["fm-index"; "ref"; "queries"]%string
            (initial_state []))
     = Ret 0
  /\ map print_hit
       (out (snd (main index_unwritable ["fm-index"; "ref"; "queries"]%string
                    (initial_state []))))
     = [tsv ["queries"; "0"; "4"; "0"; "0"; "3"]%string;
        tsv ["queries"; "1"; "4"; "0"; "0"; "3"]%string]
  /\ err (snd (main index_unwritable ["fm-index"; "ref"; "queries"]%string
                 (initial_state [])))
     = [InfoIndexMissing "ref.fm9"; InfoBuiltIndex "ref.fm9";
        InfoProcessing "queries"; InfoFinished "queries" 2].
Proof. repeat split. Qed.

(** C5.  The exit code follows the table of [main_exit_code] and
    [usage_error_exit_code], but a failure to write the index is no error
    to the program: a first run in which [store_to_file] fails and the
    record starts can be written exits with 0, where the claim has 2. *)
Theorem index_store_failure_exit_code :
  let w := scenario (Some two_records) None None false true [] (fun _ => 0) in
  store_index w "ref.fm9" = false
  /\ fst (main w ["fm-index"; "ref"]%string (initial_state [])) = Ret 0.
Proof. split; reflexivity. Qed.

(** ** Runs depend on [poll] through [hasStdin] only *)

Section PollAnswers.

Context `{TextIndex}.
Variable w : World.
Variable p : nat -> Z.

Hypothesis same_readiness : forall k, (0 <? p k) = (0 <? poll w k).

Lemma hasStdin_with_poll s : hasStdin (with_poll w p) s = hasStdin w s.
Proof. unfold hasStdin. simpl. now rewrite same_readiness. Qed.

Lemma locateQueries_loop_with_poll (fuel : nat) :
  forall fmIndex recordStarts queriesData sourceName queryBuffer numHits
         queryId s,
    locateQueries_loop (with_poll w p) fuel fmIndex recordStarts queriesData
      sourceName queryBuffer numHits queryId s
    = locateQueries_loop w fuel fmIndex recordStarts queriesData
        sourceName queryBuffer numHits queryId s.
Proof.
  induction fuel as [|fuel IH]; intros; [reflexivity|].
  cbn [locateQueries_loop]. destruct (stream_ok queriesData); [|reflexivity].
  destruct (getline queriesData queryBuffer) as [queriesData' queryBuffer'].
  unfold bind.
  match goal with
  | |- context [match ?c s with _ => _ end] => destruct (c s) as [[[n i]| | |] s1]
  end; try reflexivity.
  destruct (String.eqb sourceName "stdin"); cbv beta iota.
  - rewrite hasStdin_with_poll.
    destruct (hasStdin w s1) as [[[|]| | |] s2]; cbv beta iota delta [ret negb];
      try reflexivity.
    apply IH.
  - unfold ret. apply IH.
Qed.

Lemma locateQueries_with_poll fmIndex recordStarts queriesData sourceName
    queryBuffer s :
  locateQueries (with_poll w p) fmIndex recordStarts queriesData sourceName
    queryBuffer s
  = locateQueries w fmIndex recordStarts queriesData sourceName
      queryBuffer s.
Proof.
  unfold locateQueries, bind. destruct (log (InfoProcessing sourceName) s)
    as [[[]| | |] s1]; try reflexivity.
  now rewrite locateQueries_loop_with_poll.
Qed.

Lemma main_files_with_poll fmIndex recordStarts queryBuffer queriesFiles :
  forall s,
    main_files (with_poll w p) fmIndex recordStarts queriesFiles queryBuffer s
    = main_files w fmIndex recordStarts queriesFiles queryBuffer s.
Proof.
  induction queriesFiles as [|queryFile rest IH]; intros s; [reflexivity|].
  simpl. destruct (query_data w queryFile) as [content|]; unfold bind.
  - rewrite locateQueries_with_poll.
    destruct (locateQueries w fmIndex recordStarts (open_stream content)
                queryFile queryBuffer s) as [[?| | |] s1]; try reflexivity.
    apply IH.
  - destruct (log (WarnSkipping queryFile) s) as [[[]| | |] s1];
      try reflexivity.
    apply IH.
Qed.

Lemma main_queries_with_poll fmIndex recordStarts numQueries queriesFiles s :
  main_queries (with_poll w p) fmIndex recordStarts numQueries queriesFiles s
  = main_queries w fmIndex recordStarts numQueries queriesFiles s.
Proof.
  unfold main_queries, bind. rewrite hasStdin_with_poll.
  destruct (hasStdin w s) as [[ready| | |] s1]; try reflexivity.
  destruct (negb ready && (numQueries =? 0)); [reflexivity|].
  rewrite hasStdin_with_poll.
  destruct (hasStdin w s1) as [[[|]| | |] s2]; try reflexivity.
  - unfold get_cin. rewrite locateQueries_with_poll.
    destruct (locateQueries w fmIndex recordStarts (cin s2) "stdin" [] s2)
      as [[stdin| | |] s3]; try reflexivity.
    destruct (set_cin stdin s3) as [[[]| | |] s4]; try reflexivity.
    now rewrite main_files_with_poll.
  - unfold ret. now rewrite main_files_with_poll.
Qed.

(** Two oracles that agree on when data is available give the same run. *)
Lemma main_with_poll argv s : main (with_poll w p) argv s = main w argv s.
Proof.
  assert (Hbody : main_body (with_poll w p) argv s = main_body w argv s).
  { unfold main_body, bind.
    change (main_args (with_poll w p) argv s) with (main_args w argv s).
    destruct (main_args w argv s) as [[[positionalBegin|]| | |] s1];
      try reflexivity.
    destruct (lift_access (nth_error argv (Z.to_nat positionalBegin)) s1)
      as [[referenceFile| | |] s2]; try reflexivity.
    change (buildIndex (with_poll w p) referenceFile s2)
      with (buildIndex w referenceFile s2).
    destruct (buildIndex w referenceFile s2) as [[fmIndex| | |] s3];
      try reflexivity.
    change (getRecordStarts (with_poll w p) fmIndex referenceFile s3)
      with (getRecordStarts w fmIndex referenceFile s3).
    destruct (getRecordStarts w fmIndex referenceFile s3)
      as [[recordStarts| | |] s4]; try reflexivity.
    apply main_queries_with_poll. }
  unfold main, try_catch. now rewrite Hbody.
Qed.

End PollAnswers.

(** C9.  Reference [ACGT\nACGA\n], nothing cached, the query [ACG] on
    standard input (with or without its line terminator) and data
    available there at the start: the run writes the two rows
    [stdin 0 4 0 0 3] and [stdin 1 4 0 0 3], in this order, and exits with
    0, whatever [poll] answers later. *)
Theorem example_two_rows (p : nat -> Z) (terminated : bool) :
  0 < p 0%nat -> 0 < p 1%nat ->
  let stdin := bytes_of "ACG" ++ (if terminated then [LF] else []) in
  let run := main (first_run two_records [] p) ["fm-index"; "ref"]%string
               (initial_state stdin) in
  fst run = Ret 0
  /\ map print_hit (out (snd run))
     = [tsv ["stdin"; "0"; "4"; "0"; "0"; "3"]%string;
        tsv ["stdin"; "1"; "4"; "0"; "0"; "3"]%string].
Proof.
  intros H0 H1 stdin run. subst run stdin.
  set (p' := fun k : nat =>
               match k with
               | O | S O => 1
               | S (S O) => if 0 <? p 2%nat then 1 else 0
               | S (S (S O)) => if 0 <? p 3%nat then 1 else 0
               | _ => p k
               end).
  assert (Hsame : forall k, (0 <? p' k) = (0 <? poll (first_run two_records [] p) k)).
  { intros [|[|[|[|k]]]]; simpl.
    - symmetry. apply Z.ltb_lt, H0.
    - symmetry. apply Z.ltb_lt, H1.
    - destruct (0 <? p 2%nat); reflexivity.
    - destruct (0 <? p 3%nat); reflexivity.
    - reflexivity. }
  rewrite <- (main_with_poll (first_run two_records [] p) p' Hsame).
  change (with_poll (first_run two_records [] p) p')
    with (first_run two_records [] p').
  unfold p'.
  destruct (0 <? p 2%nat), (0 <? p 3%nat), terminated;
    vm_compute; split; reflexivity.
Qed.

Lemma example_two_rows_witness :
  fst (main (first_run two_records [] (fun _ => 1)) ["fm-index"; "ref"]%string
         (initial_state (bytes_of "ACG" ++ [LF])))
  = Ret 0
  /\ map print_hit
       (out (snd (main (first_run two_records [] (fun _ => 1))
                    ["fm-index"; "ref"]%string
                    (initial_state (bytes_of "ACG" ++ [LF])))))
     = [tsv ["stdin"; "0"; "4"; "0"; "0"; "3"]%string;
        tsv ["stdin"; "1"; "4"; "0"; "0"; "3"]%string].
Proof.
  apply (example_two_rows (fun _ => 1) true); reflexivity.
Defined.

(** ** Lines of a stream *)

Lemma lines_from_split (l : bytes) :
  forall cur,
    lines_from cur l =
    match split_line l with
    | (line, Some rest) => (cur ++ line) :: lines_from [] rest
    | (line, None) => [cur ++ line]
    end.
Proof.
  induction l as [|c l IH]; intros cur; simpl.
  - now rewrite app_nil_r.
  - destruct (Ascii.eqb c LF).
    + now rewrite app_nil_r.
    + rewrite IH. destruct (split_line l) as [line [rest|]];
        now rewrite <- app_assoc.
Qed.

Lemma lines_from_length (l : bytes) :
  forall cur, (length (lines_from cur l) <= S (length l))%nat.
Proof.
  induction l as [|c l IH]; intros cur; simpl; [lia|].
  destruct (Ascii.eqb c LF); simpl.
  - specialize (IH []). lia.
  - specialize (IH (cur ++ [c])). lia.
Qed.

Lemma pending_lines_length (st : istream) :
  (length (pending_lines st) <= S (length (buf st)))%nat.
Proof.
  unfold pending_lines. destruct (stream_ok st); [apply lines_from_length|simpl; lia].
Qed.

(** On a good stream [getline] delivers the first pending line and leaves
    the others. *)
Lemma getline_pending (st : istream) (str : bytes) :
  stream_ok st = true ->
  pending_lines st = snd (getline st str) :: pending_lines (fst (getline st str)).
Proof.
  intros Hok. unfold pending_lines at 1. rewrite Hok.
  unfold stream_ok in Hok. apply andb_true_iff in Hok as [Hfail Heof].
  apply negb_true_iff in Hfail, Heof.
  unfold getline. rewrite Hfail, Heof. simpl orb. cbv iota.
  rewrite lines_from_split.
  destruct (split_line (buf st)) as [line [rest|]]; [reflexivity|].
  simpl. unfold pending_lines, stream_ok. simpl.
  now rewrite andb_false_r.
Qed.

Lemma pending_lines_not_ok (st : istream) :
  stream_ok st = false -> pending_lines st = [].
Proof. intros Hok. unfold pending_lines. now rewrite Hok. Qed.

(** ** Numbering of queries *)

Lemma add_wrap_l a b : SizeT.add (SizeT.wrap a) b = SizeT.wrap (a + b).
Proof. unfold SizeT.add, SizeT.wrap. apply Zplus_mod_idemp_l. Qed.

Lemma located_number_lines (lines : list bytes) :
  forall base : Z,
    located (number_lines lines (SizeT.wrap base))
    = combine (map (fun k => SizeT.wrap (base + Z.of_nat k))
                 (seq 0 (length (filter nonblank lines))))
        (filter nonblank lines).
Proof.
  induction lines as [|[|c line] rest IH]; intros base.
  - reflexivity.
  - simpl. apply IH.
  - cbn [number_lines located flat_map filter nonblank length seq map combine app].
    rewrite Z.add_0_r. f_equal.
    fold (located (number_lines rest (SizeT.add (SizeT.wrap base) 1))).
    rewrite add_wrap_l, IH, <- seq_shift, map_map.
    f_equal. apply map_ext. intros k. f_equal. lia.
Qed.

Lemma number_lines_blank (lines : list bytes) :
  forall queryId,
    Forall2 (fun line item =>
               match item with
               | None => line = []
               | Some (_, q) => q = line /\ line <> []
               end)
      lines (number_lines lines queryId).
Proof.
  induction lines as [|[|c line] rest IH]; intros queryId; simpl; constructor;
    try apply IH; try reflexivity.
  split; [reflexivity|discriminate].
Qed.

(** ** The query loop, line by line *)

Section LoopByLine.

Context `{TextIndex}.
Variable w : World.
Variable fmIndex : Index.
Variable recordStarts : vector.
Variable sourceName : string.

(** The loop of [locateQueries] on a stream does what [locate_lines] does
    on the numbered pending lines of the stream; the fuel of
    [locateQueries] is enough for that. *)
Lemma locateQueries_loop_by_line (fuel : nat) :
  forall queriesData queryBuffer numHits queryId s,
    (length (pending_lines queriesData) < fuel)%nat ->
    bind (locateQueries_loop w fuel fmIndex recordStarts queriesData
            sourceName queryBuffer numHits queryId)
      (fun r => ret (snd r)) s
    = locate_lines w fmIndex recordStarts sourceName
        (number_lines (pending_lines queriesData) queryId) numHits s.
Proof.
  induction fuel as [|fuel IH]; intros queriesData queryBuffer numHits queryId s Hfuel;
    [lia|].
  cbn [locateQueries_loop].
  destruct (stream_ok queriesData) eqn:Hok.
  - rewrite (getline_pending queriesData queryBuffer Hok) in Hfuel |- *.
    destruct (getline queriesData queryBuffer) as [queriesData' line].
    cbn [fst snd] in Hfuel |- *. cbn [length] in Hfuel.
    assert (Hrest : forall numHits' queryId' s',
               bind (locateQueries_loop w fuel fmIndex recordStarts queriesData'
                       sourceName line numHits' queryId')
                 (fun r => ret (snd r)) s'
               = locate_lines w fmIndex recordStarts sourceName
                   (number_lines (pending_lines queriesData') queryId')
                   numHits' s')
      by (intros; apply IH; lia).
    destruct line as [|c line].
    + change (0 <? Z.of_nat (length (@nil byte))) with false.
      cbn [number_lines locate_lines locate_line].
      unfold bind, ret in Hrest |- *.
      destruct (String.eqb sourceName "stdin").
      * destruct (hasStdin w s) as [[[|]| | |] s1]; try reflexivity.
        cbn [negb]. apply Hrest.
      * apply Hrest.
    + change (0 <? Z.of_nat (length (c :: line))) with true.
      cbn [number_lines locate_lines locate_line].
      unfold bind, ret in Hrest |- *.
      destruct (locateQuery fmIndex recordStarts sourceName queryId (c :: line) s)
        as [[n| | |] s1]; try reflexivity.
      destruct (String.eqb sourceName "stdin").
      * destruct (hasStdin w s1) as [[[|]| | |] s2]; try reflexivity.
        cbn [negb]. apply Hrest.
      * apply Hrest.
  - rewrite (pending_lines_not_ok _ Hok). reflexivity.
Qed.

End LoopByLine.

(** C8.  For any source and from any state, [locateQueries] does what
    [locate_lines] does on the lines of the source numbered from 0: a blank
    line gets no id and no call of [locateQuery], the non-blank lines get
    the ids 0, 1, 2, ... in order (as [size_t] values).  The numbering starts
    afresh with every call, whatever ran before. *)
Theorem query_ids_per_source `{TextIndex} (w : World) (fmIndex : Index)
    (recordStarts : vector) (queriesData : istream) (sourceName : string)
    (queryBuffer : bytes) (s : State) :
  let lines := pending_lines queriesData in
  let items := number_lines lines 0 in
  bind (locateQueries w fmIndex recordStarts queriesData sourceName queryBuffer)
    (fun _ => ret tt) s
  = (log (InfoProcessing sourceName) ;;
     numHits <- locate_lines w fmIndex recordStarts sourceName items 0 ;;
     log (InfoFinished sourceName numHits)) s
  /\ Forall2 (fun line item =>
                match item with
                | None => line = []
                | Some (_, q) => q = line /\ line <> []
                end) lines items
  /\ located items
     = combine (ids_from_zero (length (filter nonblank lines)))
         (filter nonblank lines).
Proof.
  intros lines items. split; [|split].
  - unfold locateQueries.
    assert (Hfuel : (length (pending_lines queriesData)
                     < S (S (length (buf queriesData))))%nat)
      by (pose proof (pending_lines_length queriesData); lia).
    unfold items, lines, bind, ret, log.
    rewrite <- (locateQueries_loop_by_line w fmIndex recordStarts sourceName
                  _ queriesData queryBuffer 0 0 _ Hfuel).
    unfold bind, ret, log.
    match goal with
    | |- context [locateQueries_loop ?a ?b ?c ?d ?e ?f ?g ?h ?i ?j] =>
        destruct (locateQueries_loop a b c d e f g h i j) as [[[qd n]| | |] s1]
    end; reflexivity.
  - apply number_lines_blank.
  - pose proof (located_number_lines lines 0) as Hids.
    change (SizeT.wrap 0) with 0 in Hids. exact Hids.
Qed.

(** ** Query files *)

Lemma main_files_app `{TextIndex} (w : World) fmIndex recordStarts queryBuffer
    (pre post : list string) :
  forall s,
    main_files w fmIndex recordStarts (pre ++ post) queryBuffer s
    = (main_files w fmIndex recordStarts pre queryBuffer ;;
       main_files w fmIndex recordStarts post queryBuffer) s.
Proof.
  induction pre as [|queryFile pre IH]; intros s; [reflexivity|].
  cbn [app main_files].
  destruct (query_data w queryFile) as [content|]; unfold bind in IH |- *.
  - destruct (locateQueries w fmIndex recordStarts (open_stream content)
                queryFile queryBuffer s) as [[stream| | |] s1];
      try reflexivity.
    apply IH.
  - destruct (log (WarnSkipping queryFile) s) as [[[]| | |] s1];
      try reflexivity.
    apply IH.
Qed.

(** [main_queries] returns nothing but 0. *)
Lemma main_queries_code `{TextIndex} (w : World) fmIndex recordStarts
    numQueries queriesFiles s code :
  fst (main_queries w fmIndex recordStarts numQueries queriesFiles s) = Ret code ->
  code = 0.
Proof.
  unfold main_queries, bind, ret.
  destruct (hasStdin w s) as [[ready| | |] s1]; try discriminate.
  destruct (negb ready && (numQueries =? 0)); [simpl; congruence|].
  destruct (hasStdin w s1) as [[ready'| | |] s2]; try discriminate.
  match goal with
  | |- context [match ?c s2 with _ => _ end] => destruct (c s2) as [[[]| | |] s3]
  end; try discriminate.
  destruct (main_files w fmIndex recordStarts _ [] s3) as [[[]| | |] s4];
    simpl; congruence.
Qed.

(** C7.  A query file that cannot be opened: the files before it are
    processed, then one warning line is written and nothing else changes
    (no row, no poll, no read), then the files after it are processed, in
    order; the outcome of the loop over the files is that of the other
    files, so a run that is otherwise successful ends with exit code 0. *)
Theorem missing_query_file_skipped `{TextIndex} (w : World) (fmIndex : Index)
    (recordStarts : vector) (queryBuffer : bytes) (pre post : list string)
    (queryFile : string) (s : State) :
  query_data w queryFile = None ->
  main_files w fmIndex recordStarts (pre ++ queryFile :: post) queryBuffer s
  = match main_files w fmIndex recordStarts pre queryBuffer s with
    | (Ret _, s1) =>
        main_files w fmIndex recordStarts post queryBuffer
          (add_diag s1 (WarnSkipping queryFile))
    | failed => failed
    end
  /\ (fst (main_files w fmIndex recordStarts (pre ++ queryFile :: post)
              queryBuffer s) = Ret tt
      <-> fst (main_files w fmIndex recordStarts pre queryBuffer s) = Ret tt
          /\ fst (main_files w fmIndex recordStarts post queryBuffer
                    (add_diag
                       (snd (main_files w fmIndex recordStarts pre queryBuffer s))
                       (WarnSkipping queryFile))) = Ret tt)
  /\ (forall numQueries queriesFiles s0 code,
         fst (main_queries w fmIndex recordStarts numQueries queriesFiles s0)
         = Ret code -> code = 0).
Proof.
  intros Hmissing.
  assert (Hloop :
           main_files w fmIndex recordStarts (pre ++ queryFile :: post)
             queryBuffer s
           = match main_files w fmIndex recordStarts pre queryBuffer s with
             | (Ret _, s1) =>
                 main_files w fmIndex recordStarts post queryBuffer
                   (add_diag s1 (WarnSkipping queryFile))
             | failed => failed
             end).
  { rewrite main_files_app. unfold bind.
    destruct (main_files w fmIndex recordStarts pre queryBuffer s)
      as [[[]| | |] s1]; try reflexivity.
    cbn [main_files]. rewrite Hmissing. reflexivity. }
  split; [exact Hloop|]. split.
  - rewrite Hloop.
    destruct (main_files w fmIndex recordStarts pre queryBuffer s)
      as [[[]| | |] s1]; simpl; split;
      try (intros [Hpre _]; discriminate Hpre); try discriminate.
    + intros Hpost. split; [reflexivity|exact Hpost].
    + intros [_ Hpost]. exact Hpost.
  - intros numQueries queriesFiles s0 code. apply main_queries_code.
Qed.

Lemma missing_query_file_skipped_witness :
  let w := first_run two_records [("q"%string, bytes_of "ACG")] (fun _ => 0) in
  main_files w two_records [0; 5; 10] (["missing"%string] ++ "nothing"%string :: ["q"%string]) []
    (initial_state [])
  = match main_files w two_records [0; 5; 10] ["missing"%string] []
            (initial_state []) with
    | (Ret _, s1) =>
        main_files w two_records [0; 5; 10] ["q"%string] []
          (add_diag s1 (WarnSkipping "nothing"))
    | failed => failed
    end.
Proof.
  intros w.
  apply (missing_query_file_skipped w two_records [0; 5; 10] []
           ["missing"%string] ["q"%string] "nothing" (initial_state [])).
  reflexivity.
Defined.

(** ** What a query leaves alone *)

Lemma locateQuery_hit_frame starts name qid q b s :
  exists rows, snd (locateQuery_hit starts name qid q b s) = add_rows s rows.
Proof.
  unfold locateQuery_hit, bind, lift, lift_access, ret, undefined, print.
  destruct (findSourceId starts b) as [r| | |];
    try (exists []; now rewrite add_rows_nil).
  destruct (vec_at starts r); [|exists []; now rewrite add_rows_nil].
  destruct (vec_at starts (SizeT.add r 1));
    [|exists []; simpl; now rewrite add_rows_nil].
  eexists [_]. reflexivity.
Qed.

Lemma locateQuery_loop_frame starts name qid q locations :
  forall s, exists rows,
    snd (locateQuery_loop starts name qid q locations s) = add_rows s rows.
Proof.
  induction locations as [|b rest IH]; intros s.
  - exists []. simpl. now rewrite add_rows_nil.
  - cbn [locateQuery_loop]. unfold bind.
    destruct (locateQuery_hit_frame starts name qid q b s) as [rows Hrows].
    destruct (locateQuery_hit starts name qid q b s) as [[[]| | |] s1];
      simpl in Hrows; subst s1; try (exists rows; reflexivity).
    destruct (IH (add_rows s rows)) as [rows' Hrows'].
    exists (rows ++ rows'). now rewrite Hrows', add_rows_app.
Qed.

(** A query writes rows and touches nothing else. *)
Lemma locateQuery_frame `{TextIndex} fmIndex starts name qid q s :
  exists rows,
    snd (locateQuery fmIndex starts name qid q s) = add_rows s rows.
Proof.
  unfold locateQuery, bind, ret.
  destruct (locateQuery_loop_frame starts name qid q
              (sort (locate fmIndex q)) s) as [rows Hrows].
  exists rows.
  destruct (locateQuery_loop starts name qid q (sort (locate fmIndex q)) s)
    as [[[]| | |] s1]; exact Hrows.
Qed.

Lemma findSourceId_no_fuel starts b :
  size starts < SizeT.modulus -> findSourceId starts b <> OutOfFuel.
Proof.
  intros Hsize. destruct (Z.eq_dec (size starts) 0) as [E|E].
  - rewrite (size_zero_nil starts E). discriminate.
  - apply findSourceId_terminates. pose proof (size_nonneg starts). lia.
Qed.

Lemma locateQuery_loop_no_fuel starts name qid q locations :
  size starts < SizeT.modulus ->
  forall s, fst (locateQuery_loop starts name qid q locations s) <> OutOfFuel.
Proof.
  intros Hsize. induction locations as [|b rest IH]; intros s; [discriminate|].
  cbn [locateQuery_loop]. unfold bind.
  destruct (locateQuery_hit starts name qid q b s) as [[[]| | |] s1] eqn:Ehit;
    try discriminate; [apply IH|].
  exfalso. revert Ehit.
  unfold locateQuery_hit, bind, lift, lift_access, ret, undefined, print.
  pose proof (findSourceId_no_fuel starts b Hsize) as Hfind.
  destruct (findSourceId starts b) as [r| | |]; try discriminate;
    [|contradiction].
  destruct (vec_at starts r); [|discriminate].
  destruct (vec_at starts (SizeT.add r 1)); discriminate.
Qed.

Lemma locateQuery_no_fuel `{TextIndex} fmIndex starts name qid q s :
  size starts < SizeT.modulus ->
  fst (locateQuery fmIndex starts name qid q s) <> OutOfFuel.
Proof.
  intros Hsize. unfold locateQuery, bind, ret.
  pose proof (locateQuery_loop_no_fuel starts name qid q
                (sort (locate fmIndex q)) Hsize s) as Hloop.
  destruct (locateQuery_loop starts name qid q (sort (locate fmIndex q)) s)
    as [[[]| | |] s1]; try discriminate. destruct Hloop. reflexivity.
Qed.

Section Termination.

Context `{TextIndex}.
Variable w : World.
Variable fmIndex : Index.
Variable recordStarts : vector.

Hypothesis size_fits : size recordStarts < SizeT.modulus.

Lemma locate_lines_no_fuel sourceName items :
  forall numHits s,
    fst (locate_lines w fmIndex recordStarts sourceName items numHits s)
    <> OutOfFuel.
Proof.
  induction items as [|item rest IH]; intros numHits s; [discriminate|].
  cbn [locate_lines]. unfold bind, ret.
  assert (Hline : forall s0,
             fst (locate_line fmIndex recordStarts sourceName item numHits s0)
             <> OutOfFuel).
  { intros s0. destruct item as [[queryId query]|]; [|discriminate].
    unfold locate_line, bind, ret.
    pose proof (locateQuery_no_fuel fmIndex recordStarts sourceName queryId
                  query s0 size_fits) as Hq.
    destruct (locateQuery fmIndex recordStarts sourceName queryId query s0)
      as [[n| | |] s1]; try discriminate. destruct Hq. reflexivity. }
  specialize (Hline s).
  destruct (locate_line fmIndex recordStarts sourceName item numHits s)
    as [[n| | |] s1]; try discriminate; [|exact Hline].
  destruct (String.eqb sourceName "stdin").
  - unfold hasStdin. destruct (0 <? poll w (polls s1)); simpl;
      [apply IH|discriminate].
  - apply IH.
Qed.

(** [locateQueries] comes to an end on every stream. *)
Lemma locateQueries_no_fuel queriesData sourceName queryBuffer s :
  fst (locateQueries w fmIndex recordStarts queriesData sourceName
         queryBuffer s) <> OutOfFuel.
Proof.
  unfold locateQueries.
  assert (Hfuel : (length (pending_lines queriesData)
                   < S (S (length (buf queriesData))))%nat)
    by (pose proof (pending_lines_length queriesData); lia).
  unfold bind, log, ret.
  match goal with
  | |- context [locateQueries_loop ?a ?b ?c ?d ?e ?f ?g ?h ?i ?j] =>
      pose proof (locateQueries_loop_by_line a c d f b e g h i j Hfuel) as Hline;
      pose proof (locate_lines_no_fuel f (number_lines (pending_lines e) i) h j)
        as Hno;
      rewrite <- Hline in Hno; unfold bind, ret in Hno;
      destruct (locateQueries_loop a b c d e f g h i j) as [[[qd n]| | |] s1]
  end; try discriminate.
  destruct Hno. reflexivity.
Qed.

End Termination.

(** ** Standard input *)

Section StandardInput.

Context `{TextIndex}.
Variable w : World.
Variable fmIndex : Index.
Variable recordStarts : vector.

(** The part of a pass of the query loop that locates the line. *)
Lemma locate_step_frame sourceName queryBuffer numHits queryId s :
  exists rows,
    snd ((if 0 <? Z.of_nat (length queryBuffer) then
            n <- locateQuery fmIndex recordStarts sourceName queryId
                   queryBuffer ;;
            ret (SizeT.add numHits n, SizeT.add queryId 1)
          else ret (numHits, queryId)) s)
    = add_rows s rows.
Proof.
  destruct (0 <? Z.of_nat (length queryBuffer)).
  - unfold bind, ret.
    destruct (locateQuery_frame fmIndex recordStarts sourceName queryId
                queryBuffer s) as [rows Hrows].
    exists rows.
    destruct (locateQuery fmIndex recordStarts sourceName queryId queryBuffer s)
      as [[n| | |] s1]; exact Hrows.
  - exists []. simpl. now rewrite add_rows_nil.
Qed.

(** No pass of the query loop touches [cin] in the state: the stream it
    reads is the one it was given. *)
Lemma locateQueries_loop_cin (fuel : nat) :
  forall queriesData sourceName queryBuffer numHits queryId s,
    cin (snd (locateQueries_loop w fuel fmIndex recordStarts queriesData
                sourceName queryBuffer numHits queryId s))
    = cin s.
Proof.
  induction fuel as [|fuel IH]; intros; [reflexivity|].
  cbn [locateQueries_loop]. destruct (stream_ok queriesData); [|reflexivity].
  destruct (getline queriesData queryBuffer) as [queriesData' line].
  unfold bind at 1.
  destruct (locate_step_frame sourceName line numHits queryId s) as [rows Hrows].
  match goal with
  | |- context [match ?c s with _ => _ end] =>
      destruct (c s) as [[[n i]| | |] s1]
  end; simpl in Hrows; subst s1; try reflexivity.
  unfold bind, ret. destruct (String.eqb sourceName "stdin").
  - unfold hasStdin. destruct (0 <? poll w (polls (add_rows s rows))); simpl.
    + now rewrite IH.
    + reflexivity.
  - now rewrite IH.
Qed.

Lemma locateQueries_cin queriesData sourceName queryBuffer s :
  cin (snd (locateQueries w fmIndex recordStarts queriesData sourceName
              queryBuffer s))
  = cin s.
Proof.
  unfold locateQueries, bind, log, ret.
  match goal with
  | |- context [locateQueries_loop ?a ?b ?c ?d ?e ?f ?g ?h ?i ?j] =>
      pose proof (locateQueries_loop_cin b e f g h i j) as Hcin;
      destruct (locateQueries_loop a b c d e f g h i j) as [[[qd n]| | |] s1]
  end; exact Hcin.
Qed.

(** The query files are read from their own streams: the loop over them
    leaves standard input where it is. *)
Lemma main_files_cin queriesFiles queryBuffer :
  forall s,
    cin (snd (main_files w fmIndex recordStarts queriesFiles queryBuffer s))
    = cin s.
Proof.
  induction queriesFiles as [|queryFile rest IH]; intros s; [reflexivity|].
  cbn [main_files]. destruct (query_data w queryFile) as [content|]; unfold bind.
  - pose proof (locateQueries_cin (open_stream content) queryFile queryBuffer s)
      as Hcin.
    destruct (locateQueries w fmIndex recordStarts (open_stream content)
                queryFile queryBuffer s) as [[stream| | |] s1];
      try exact Hcin.
    now rewrite IH.
  - unfold log. now rewrite IH.
Qed.

(** The loop on standard input reads a prefix of the pending lines: every
    check before the last line read found data, and the loop stopped at the
    end of the data or at the first check that found none. *)
Lemma stdin_loop_prefix (fuel : nat) :
  forall queriesData queryBuffer numHits queryId s queriesData' n s',
    locateQueries_loop w fuel fmIndex recordStarts queriesData "stdin"
      queryBuffer numHits queryId s
    = (Ret (queriesData', n), s') ->
    exists k : nat,
      queriesData' = after_lines k queriesData queryBuffer
      /\ (k <= length (pending_lines queriesData))%nat
      /\ polls s' = (polls s + k)%nat
      /\ (forall j, (j + 1 < k)%nat -> 0 < poll w (polls s + j))
      /\ (k = length (pending_lines queriesData)
          \/ ((1 <= k)%nat /\ poll w (polls s + k - 1) <= 0)).
Proof.
  induction fuel as [|fuel IH]; intros queriesData queryBuffer numHits queryId s
    queriesData' n s' Hrun; [discriminate|].
  cbn [locateQueries_loop] in Hrun.
  destruct (stream_ok queriesData) eqn:Hok.
  - rewrite (getline_pending queriesData queryBuffer Hok).
    assert (Hafter : forall k, after_lines (S k) queriesData queryBuffer
                               = after_lines k (fst (getline queriesData queryBuffer))
                                   (snd (getline queriesData queryBuffer)))
      by (intros k; simpl; now destruct (getline queriesData queryBuffer)).
    destruct (getline queriesData queryBuffer) as [stream line].
    cbn [fst snd] in Hafter |- *.
    unfold bind at 1 in Hrun.
    destruct (locate_step_frame "stdin" line numHits queryId s) as [rows Hrows].
    match type of Hrun with
    | context [match ?c s with _ => _ end] =>
        destruct (c s) as [[[numHits' queryId']| | |] s1]
    end; simpl in Hrows; subst s1; try discriminate.
    change (String.eqb "stdin" "stdin") with true in Hrun.
    unfold bind, ret, hasStdin in Hrun. cbn [polls add_rows] in Hrun.
    destruct (0 <? poll w (polls s)) eqn:Hready; cbn [negb] in Hrun.
    + apply IH in Hrun as (k & Hstream & Hle & Hpolls & Hbefore & Hstop).
      cbn [polls] in Hpolls, Hbefore, Hstop.
      exists (S k). rewrite Hafter. split; [exact Hstream|].
      split; [simpl; lia|]. split; [lia|]. split.
      * intros [|j] Hj.
        -- rewrite Nat.add_0_r. now apply Z.ltb_lt.
        -- replace (polls s + S j)%nat with (S (polls s) + j)%nat by lia.
           apply Hbefore. lia.
      * destruct Hstop as [->|[Hk Hnone]]; [left; reflexivity|right].
        split; [lia|].
        replace (polls s + S k - 1)%nat with (S (polls s) + k - 1)%nat by lia.
        exact Hnone.
    + injection Hrun as <- <- <-.
      exists 1%nat. rewrite Hafter. split; [reflexivity|].
      split; [simpl; lia|]. split; [simpl; lia|]. split.
      * intros j Hj. lia.
      * right. split; [lia|].
        replace (polls s + 1 - 1)%nat with (polls s) by lia.
        now apply Z.ltb_ge.
  - injection Hrun as <- <- <-. exists 0%nat.
    rewrite (pending_lines_not_ok _ Hok). split; [reflexivity|].
    split; [simpl; lia|]. split; [lia|]. split.
    + intros j Hj. lia.
    + left. reflexivity.
Qed.

End StandardInput.

(** C6.  [main_queries] checks standard input once, returns at once when
    nothing is there and no file is given, and checks again: only when this
    check finds data is standard input read, before the loop over the files,
    which never touches it; otherwise it is not read at all.  A call of
    [locateQueries] on standard input that returns has read a prefix of the
    pending lines, one availability check after each line: all checks
    before the last line read found data, and reading stopped at the end of
    the data or at the first check that found none, without end-of-file.
    The call comes to an end on every stream. *)
Theorem stdin_consumed_while_available `{TextIndex} (w : World)
    (fmIndex : Index) (recordStarts : vector) (numQueries : Z)
    (queriesFiles : list string) (s : State) :
  let ready0 := 0 <? poll w (polls s) in
  let ready1 := 0 <? poll w (S (polls s)) in
  let files := firstn (Z.to_nat numQueries) queriesFiles in
  main_queries w fmIndex recordStarts numQueries queriesFiles s
  = (if negb ready0 && (numQueries =? 0) then (Ret 0, add_polls s 1)
     else if ready1 then
       (stdin <- locateQueries w fmIndex recordStarts (cin s) "stdin" [] ;;
        set_cin stdin ;;
        main_files w fmIndex recordStarts files [] ;;
        ret 0) (add_polls s 2)
     else
       (main_files w fmIndex recordStarts files [] ;; ret 0) (add_polls s 2))
  /\ (forall files' queryBuffer s1,
         cin (snd (main_files w fmIndex recordStarts files' queryBuffer s1))
         = cin s1)
  /\ (forall queriesData queryBuffer s1 queriesData' s1',
         locateQueries w fmIndex recordStarts queriesData "stdin" queryBuffer s1
         = (Ret queriesData', s1') ->
         exists k : nat,
           queriesData' = after_lines k queriesData queryBuffer
           /\ (k <= length (pending_lines queriesData))%nat
           /\ polls s1' = (polls s1 + k)%nat
           /\ (forall j, (j + 1 < k)%nat -> 0 < poll w (polls s1 + j))
           /\ (k = length (pending_lines queriesData)
               \/ ((1 <= k)%nat /\ poll w (polls s1 + k - 1) <= 0)))
  /\ (size recordStarts < SizeT.modulus ->
      forall queriesData sourceName queryBuffer s1,
        fst (locateQueries w fmIndex recordStarts queriesData sourceName
               queryBuffer s1) <> OutOfFuel).
Proof.
  intros ready0 ready1 files. split; [|split; [|split]].
  - subst ready0 ready1 files. destruct s as [rows diags k stdin].
    unfold main_queries, bind, hasStdin, get_cin, ret, add_polls.
    cbv beta iota delta [polls cin out err Nat.add].
    destruct (negb (0 <? poll w k) && (numQueries =? 0)); [reflexivity|].
    destruct (0 <? poll w (S k)); [|reflexivity].
    destruct (locateQueries w fmIndex recordStarts stdin "stdin" [] _)
      as [[qd| | |] s1]; reflexivity.
  - intros files' queryBuffer s1. apply main_files_cin.
  - intros queriesData queryBuffer s1 queriesData' s1' Hrun.
    unfold locateQueries, bind, log, ret in Hrun.
    match type of Hrun with
    | context [locateQueries_loop ?a ?b ?c ?d ?e ?f ?g ?h ?i ?j] =>
        destruct (locateQueries_loop a b c d e f g h i j)
          as [[[qd n]| | |] s2] eqn:Eloop
    end; try discriminate.
    injection Hrun as <- <-.
    apply stdin_loop_prefix in Eloop. cbn [polls] in Eloop |- *. exact Eloop.
  - intros Hsize queriesData sourceName queryBuffer s1.
    apply locateQueries_no_fuel, Hsize.
Qed.

Lemma stdin_consumed_while_available_witness :
  let w := first_run two_records [] two_lines_ready in
  let s1 := add_polls (initial_state three_lines) 2 in
  exists k : nat,
    {| buf := bytes_of "GA" ++ [LF]; eofbit := false; failbit := false |}
    = after_lines k (open_stream three_lines) []
    /\ (k <= length (pending_lines (open_stream three_lines)))%nat
    /\ 4%nat = (polls s1 + k)%nat
    /\ (forall j, (j + 1 < k)%nat -> 0 < poll w (polls s1 + j))
    /\ (k = length (pending_lines (open_stream three_lines))
        \/ ((1 <= k)%nat /\ poll w (polls s1 + k - 1) <= 0)).
Proof.
  intros w s1.
  destruct (stdin_consumed_while_available w two_records [0; 5; 10] 0 []
              (initial_state three_lines)) as (_ & _ & Hprefix & _).
  apply (Hprefix (open_stream three_lines) [] s1
           {| buf := bytes_of "GA" ++ [LF]; eofbit := false; failbit := false |}
           (snd (locateQueries w two_records [0; 5; 10]
                   (open_stream three_lines) "stdin" [] s1))).
  reflexivity.
Defined.

(** ** Sample runs *)

(** Lines and their ids: the blank line in the middle and the piece after
    the last terminator get none. *)
Example number_lines_sample :
  number_lines
    (pending_lines
       (open_stream (bytes_of "ACG" ++ [LF; LF] ++ bytes_of "GA" ++ [LF]))) 0
  = [Some (0, bytes_of "ACG"); None; Some (1, bytes_of "GA"); None].
Proof. reflexivity. Qed.

(** A query file that does not exist, between standard input without data
    and a file that exists: one warning, the rows of the other file, exit
    code 0. *)
Example missing_file_run :
  let w := first_run two_records [("q"%string, bytes_of "CGA")] (fun _ => 0) in
  let run := main w ["fm-index"; "ref"; "nothing"; "q"]%string (initial_state []) in
  fst run = Ret 0
  /\ map print_hit (out (snd run)) = [tsv ["q"; "1"; "4"; "0"; "1"; "4"]%string]
  /\ filter (fun d => match d with WarnSkipping _ => true | _ => false end)
       (err (snd run))
     = [WarnSkipping "nothing"].
Proof. repeat split. Qed.

(** Usage errors end with exit code 1: no reference argument, an unknown
    option, [-P] without a value, a temporary directory that does not
    exist. *)
Example usage_error_runs :
  let w := first_run two_records [] (fun _ => 0) in
  fst (main w ["fm-index"]%string (initial_state [])) = Ret 1
  /\ fst (main w ["fm-index"; "-x"; "ref"]%string (initial_state [])) = Ret 1
  /\ fst (main w ["fm-index"; "-P"; "ref"]%string (initial_state [])) = Ret 1
  /\ fst (main w ["fm-index"; "-P/nowhere"; "ref"]%string (initial_state []))
     = Ret 1
  /\ fst (main w ["fm-index"; "-P/tmp"; "ref"]%string (initial_state []))
     = Ret 0.
Proof. repeat split. Qed.

(** Runtime errors of the program's own end with exit code 2: the
    reference file is missing and no index is cached; the record starts
    cannot be written; a hit lies in no record of a cached table that does
    not fit the text (the row written before stays). *)
Example runtime_error_runs :
  fst (main (scenario None None None true true [] (fun _ => 0))
         ["fm-index"; "ref"]%string (initial_state [])) = Ret 2
  /\ fst (main (scenario (Some two_records) None None true false [] (fun _ => 0))
            ["fm-index"; "ref"]%string (initial_state [])) = Ret 2
  /\ (let run := main (scenario (Some two_records) None (Some [0; 5]) true true
                         [("q"%string, bytes_of "ACG")] (fun _ => 0))
                   ["fm-index"; "ref"; "q"]%string (initial_state []) in
      fst run = Ret 2
      /\ map print_hit (out (snd run)) = [tsv ["q"; "0"; "4"; "0"; "0"; "3"]%string]).
Proof. repeat split. Qed.

(** A cached index is trusted: with it the reference file is not opened. *)
Example cached_index_run :
  fst (main (scenario None (Some two_records) (Some [0; 5; 10]) true true []
               (fun _ => 0))
         ["fm-index"; "ref"]%string (initial_state [])) = Ret 0.
Proof. reflexivity. Qed.

(** An exception of the index engine ends with exit code 3. *)
Example engine_error_run :
  fst (main (first_run (bytes_of "AC" ++ [zero; LF]) [] (fun _ => 0))
         ["fm-index"; "ref"]%string (initial_state [])) = Ret 3.
Proof. reflexivity. Qed.

(** * Further properties of the driver *)

(** ** The command line *)

Lemma last_cons {A} (x : A) (l : list A) (d : A) : last (x :: l) d = last l x.
Proof.
  revert x d. induction l as [|y l IH]; intros x d; [reflexivity|].
  change (last (x :: y :: l) d) with (last (y :: l) d).
  now rewrite (IH y d), (IH y x).
Qed.

Lemma is_P_option_step a rest i dir :
  is_P_option a = true ->
  parseArgs_loop (a :: rest) i dir = parseArgs_loop rest (i + 1) (arg_from2 a).
Proof.
  unfold is_P_option, is_dash. intros Hopt.
  apply andb_true_iff in Hopt as [Hopt Hvalue].
  apply andb_true_iff in Hopt as [Hdash HP].
  apply negb_true_iff in Hvalue.
  cbn [parseArgs_loop]. now rewrite Hdash, HP, Hvalue.
Qed.

Lemma parseArgs_loop_options (opts : list string) :
  forall rest i dir,
    Forall (fun a => is_P_option a = true) opts ->
    match rest with [] => True | a :: _ => is_dash a = false end ->
    parseArgs_loop (opts ++ rest) i dir
    = Ret (i + Z.of_nat (length opts), last (map arg_from2 opts) dir).
Proof.
  induction opts as [|a opts IH]; intros rest i dir Hopts Hrest.
  - cbn [app length map last Z.of_nat]. rewrite Z.add_0_r.
    destruct rest as [|b rest]; [reflexivity|].
    cbn [parseArgs_loop]. unfold is_dash in Hrest. now rewrite Hrest.
  - inversion Hopts as [|? ? Ha Hopts']; subst.
    cbn [app]. rewrite (is_P_option_step a _ i dir Ha).
    rewrite (IH rest (i + 1) (arg_from2 a) Hopts' Hrest).
    cbn [map length]. rewrite last_cons. f_equal. f_equal. lia.
Qed.


(** Every list of arguments splits into leading [-P<dir>] options and a
    rest that is empty, or starts with a positional argument, or starts
    with a bad option. *)
Lemma arguments_split (args : list string) :
  exists opts rest,
    args = opts ++ rest
    /\ Forall (fun a => is_P_option a = true) opts
    /\ match rest with
       | [] => True
       | a :: _ => is_P_option a = false
       end.
Proof.
  induction args as [|a args (opts & rest & -> & Hopts & Hrest)].
  - exists [], []. repeat split; constructor.
  - destruct (is_P_option a) eqn:Ha.
    + exists (a :: opts), rest. split; [reflexivity|].
      split; [constructor; assumption|exact Hrest].
    + exists [], (a :: opts ++ rest). split; [reflexivity|].
      split; [constructor|exact Ha].
Qed.

(** X1.  When the arguments after the program name are [-P<dir>] options
    followed by nothing or by an argument without a leading dash,
    [parseArgs] looks at the directory of the last option only (the default
    one without options): it returns the position of the first argument
    after the options and that directory when the directory exists, and
    throws otherwise.  Directories of earlier options are never checked. *)
Theorem parseArgs_options `{TextIndex} (w : World) (argv opts rest : list string) :
  tl argv = opts ++ rest ->
  Forall (fun a => is_P_option a = true) opts ->
  match rest with [] => True | a :: _ => is_dash a = false end ->
  let dir := last (map arg_from2 opts) (getDefaultTempDir w) in
  parseArgs w argv
  = if dirExists w dir then Ret (1 + Z.of_nat (length opts), dir)
    else Throw (FmIndexException ("Cannot open temporary directory: " ++ dir)).
Proof.
  intros Hargs Hopts Hrest dir. unfold parseArgs.
  rewrite Hargs, (parseArgs_loop_options opts rest 1 _ Hopts Hrest).
  fold dir. destruct (dirExists w dir); reflexivity.
Qed.

Lemma parseArgs_options_witness :
  parseArgs (first_run two_records [] (fun _ => 0))
    ["fm-index"; "-P/nowhere"; "-P/tmp"; "ref"; "-q"]%string
  = Ret (3, "/tmp"%string).
Proof.
  apply (parseArgs_options (first_run two_records [] (fun _ => 0))
           ["fm-index"; "-P/nowhere"; "-P/tmp"; "ref"; "-q"]%string
           ["-P/nowhere"; "-P/tmp"]%string ["ref"; "-q"]%string).
  - reflexivity.
  - repeat constructor.
  - reflexivity.
Defined.



(** ** The lookup on any table *)

(** X3.  On any non-empty table, sorted or not, [findSourceId] returns the
    smallest index [i] with [starts[i] <= b < starts[i+1]], and throws
    exactly when there is no such index (always, on a table of one
    entry). *)
Theorem findSourceId_least (starts : vector) (b : Z) :
  1 <= size starts < SizeT.modulus ->
  (forall i, findSourceId starts b = Ret i
             <-> in_record starts b i
                 /\ forall j, in_record starts b j -> i <= j)
  /\ (findSourceId starts b = Throw invalid_hit
      <-> forall j, ~ in_record starts b j).
Proof.
  intros Hsize.
  destruct (findSourceId_first starts b Hsize)
    as [(r & Hr & Hin & Hmin)|[Hthrow Hnone]].
  - assert (Hleast : forall j, in_record starts b j -> r <= j).
    { intros j (Hj0 & Hj1 & Hj). destruct (Z_le_gt_dec r j) as [Hle|Hgt];
        [exact Hle|]. destruct (Hmin j); [lia|exact Hj]. }
    split.
    + intros i. rewrite Hr. split.
      * intros E. injection E as <-. split; assumption.
      * intros [Hi Hi_least]. f_equal.
        specialize (Hleast i Hi). specialize (Hi_least r Hin). lia.
    + rewrite Hr. split; [discriminate|]. intros Hnone. destruct (Hnone r Hin).
  - split.
    + intros i. rewrite Hthrow. split; [discriminate|].
      intros [Hi _]. destruct (Hnone i Hi).
    + rewrite Hthrow. split; [intros _; exact Hnone|reflexivity].
Qed.

Lemma findSourceId_least_witness :
  findSourceId [0; 10; 5; 20] 7 = Ret 0
  /\ in_record [0; 10; 5; 20] 7 2
  /\ findSourceId [3] 3 = Throw invalid_hit.
Proof.
  split; [|split].
  - apply (proj1 (findSourceId_least [0; 10; 5; 20] 7
                    ltac:(vm_compute; split; [discriminate|reflexivity]))).
    split.
    + vm_compute. repeat split; discriminate.
    + intros j (Hj & _). exact Hj.
  - vm_compute. repeat split; discriminate.
  - apply (proj2 (findSourceId_least [3] 3
                    ltac:(vm_compute; split; [discriminate|reflexivity]))).
    intros j (Hj0 & Hj1 & _). unfold size in Hj1. simpl in Hj1. lia.
Defined.

(** ** Reading a stream to its end *)

Lemma read_lines_pending (fuel : nat) :
  forall st str,
    (length (pending_lines st) < fuel)%nat ->
    read_lines fuel st str = pending_lines st.
Proof.
  induction fuel as [|fuel IH]; intros st str Hfuel; [lia|].
  cbn [read_lines]. destruct (stream_ok st) eqn:Hok.
  - rewrite (getline_pending st str Hok) in Hfuel |- *.
    destruct (getline st str) as [st' line]. cbn [fst snd length] in Hfuel |- *.
    f_equal. apply IH. lia.
  - now rewrite (pending_lines_not_ok st Hok).
Qed.

Lemma lines_from_flat (l : bytes) :
  forall cur,
    flat_map (fun line => LF :: line) (lines_from cur l) = LF :: cur ++ l.
Proof.
  induction l as [|c l IH]; intros cur; cbn [lines_from].
  - reflexivity.
  - destruct (Ascii.eqb c LF) eqn:E.
    + apply Ascii.eqb_eq in E. subst c. cbn [flat_map].
      rewrite IH. reflexivity.
    + rewrite IH, <- app_assoc. reflexivity.
Qed.

Lemma lines_from_join (l cur : bytes) : join_lines (lines_from cur l) = cur ++ l.
Proof.
  pose proof (lines_from_flat l cur) as Hflat.
  destruct (lines_from cur l) as [|first rest]; [discriminate|].
  cbn [flat_map] in Hflat. cbn [join_lines].
  change ((LF :: first) ++ flat_map (fun line => LF :: line) rest)
    with (LF :: first ++ flat_map (fun line => LF :: line) rest) in Hflat.
  now injection Hflat.
Qed.

Lemma lines_from_no_terminator (l : bytes) :
  forall cur,
    ~ In LF cur -> Forall (fun line => ~ In LF line) (lines_from cur l).
Proof.
  induction l as [|c l IH]; intros cur Hcur; cbn [lines_from].
  - constructor; [exact Hcur|constructor].
  - destruct (Ascii.eqb c LF) eqn:E.
    + constructor; [exact Hcur|]. apply IH. intros [].
    + apply IH. intros Hin. apply in_app_or in Hin as [Hin|[Hc|[]]].
      * exact (Hcur Hin).
      * apply Ascii.eqb_neq in E. exact (E Hc).
Qed.

Lemma lines_from_count (l : bytes) :
  forall cur, Z.of_nat (length (lines_from cur l)) = num_terminators l + 1.
Proof.
  unfold num_terminators.
  induction l as [|c l IH]; intros cur; cbn [lines_from filter]; [reflexivity|].
  destruct (Ascii.eqb c LF).
  - cbn [length]. specialize (IH []). lia.
  - apply IH.
Qed.

(** X4.  Reading a stream to its end with [getline], as the loop of
    [locateQueries] does, delivers one line more than the data has
    terminators; no line holds a terminator, and the lines joined by
    terminators are the data again: nothing is lost or added, a final
    unterminated line is delivered like the others, and data that ends with
    a terminator (or is empty) gives a last, empty line. *)
Theorem getline_round_trip (content str : bytes) :
  let lines := read_lines (S (S (length content))) (open_stream content) str in
  join_lines lines = content
  /\ Forall (fun line => ~ In LF line) lines
  /\ Z.of_nat (length lines) = num_terminators content + 1.
Proof.
  intros lines.
  assert (Hlines : lines = lines_from [] content).
  { unfold lines. rewrite read_lines_pending; [reflexivity|].
    pose proof (pending_lines_length (open_stream content)) as Hlen.
    simpl in Hlen |- *. lia. }
  rewrite Hlines. split; [apply lines_from_join|].
  split; [apply lines_from_no_terminator; intros []|apply lines_from_count].
Qed.

(** ** Query files are read to the end *)

Section QueryFile.

Context `{TextIndex}.
Variable w : World.
Variable fmIndex : Index.
Variable recordStarts : vector.
Variable sourceName : string.

Hypothesis not_stdin : String.eqb sourceName "stdin" = false.

Lemma file_loop_reads_all (fuel : nat) :
  forall queriesData queryBuffer numHits queryId s queriesData' n s',
    (length (pending_lines queriesData) < fuel)%nat ->
    locateQueries_loop w fuel fmIndex recordStarts queriesData sourceName
      queryBuffer numHits queryId s
    = (Ret (queriesData', n), s') ->
    queriesData'
    = after_lines (length (pending_lines queriesData)) queriesData queryBuffer
    /\ stream_ok queriesData' = false
    /\ polls s' = polls s.
Proof.
  induction fuel as [|fuel IH]; intros queriesData queryBuffer numHits queryId s
    queriesData' n s' Hfuel Hrun; [lia|].
  cbn [locateQueries_loop] in Hrun.
  destruct (stream_ok queriesData) eqn:Hok.
  - rewrite (getline_pending queriesData queryBuffer Hok) in Hfuel |- *.
    assert (Hafter : forall k, after_lines (S k) queriesData queryBuffer
                               = after_lines k (fst (getline queriesData queryBuffer))
                                   (snd (getline queriesData queryBuffer)))
      by (intros k; simpl; now destruct (getline queriesData queryBuffer)).
    destruct (getline queriesData queryBuffer) as [stream line].
    cbn [fst snd length] in Hafter, Hfuel |- *.
    unfold bind at 1 in Hrun.
    destruct (locate_step_frame fmIndex recordStarts sourceName line numHits
                queryId s) as [rows Hrows].
    match type of Hrun with
    | context [match ?c s with _ => _ end] =>
        destruct (c s) as [[[numHits' queryId']| | |] s1]
    end; simpl in Hrows; subst s1; try discriminate.
    rewrite not_stdin in Hrun. unfold bind, ret in Hrun.
    apply IH in Hrun as (Hstream & Hend & Hpolls); [|lia].
    rewrite Hafter. repeat split; assumption.
  - injection Hrun as <- <- <-.
    rewrite (pending_lines_not_ok _ Hok). repeat split. exact Hok.
Qed.

End QueryFile.

(** X5.  For a source that is not named [stdin], a call of [locateQueries]
    that returns has made no availability check, has left standard input
    alone and has read the stream to its end: as many [getline] calls as
    there are pending lines, after which the stream is not good. *)
Theorem file_read_to_end `{TextIndex} (w : World) (fmIndex : Index)
    (recordStarts : vector) (queriesData : istream) (sourceName : string)
    (queryBuffer : bytes) (s : State) (queriesData' : istream) (s' : State) :
  String.eqb sourceName "stdin" = false ->
  locateQueries w fmIndex recordStarts queriesData sourceName queryBuffer s
  = (Ret queriesData', s') ->
  queriesData'
  = after_lines (length (pending_lines queriesData)) queriesData queryBuffer
  /\ stream_ok queriesData' = false
  /\ polls s' = polls s
  /\ cin s' = cin s.
Proof.
  intros Hname Hrun.
  pose proof (locateQueries_cin w fmIndex recordStarts queriesData sourceName
                queryBuffer s) as Hcin.
  rewrite Hrun in Hcin. cbn [snd] in Hcin.
  unfold locateQueries, bind, log, ret in Hrun.
  match type of Hrun with
  | context [locateQueries_loop ?a ?b ?c ?d ?e ?f ?g ?h ?i ?j] =>
      destruct (locateQueries_loop a b c d e f g h i j)
        as [[[qd n]| | |] s2] eqn:Eloop
  end; try discriminate.
  injection Hrun as <- <-.
  apply (file_loop_reads_all w fmIndex recordStarts sourceName Hname) in Eloop
    as (Hstream & Hend & Hpolls).
  - cbn [polls] in Hpolls |- *. repeat split; assumption.
  - pose proof (pending_lines_length queriesData). lia.
Qed.

Lemma file_read_to_end_witness :
  let w := first_run two_records [] (fun _ => 0) in
  let run := locateQueries w two_records [0; 5; 10] (open_stream three_lines)
               "q" [] (initial_state []) in
  exists queriesData',
    fst run = Ret queriesData'
    /\ queriesData' = after_lines 4 (open_stream three_lines) []
    /\ stream_ok queriesData' = false
    /\ polls (snd run) = 0%nat
    /\ cin (snd run) = open_stream [].
Proof.
  intros w run.
  exists {| buf := []; eofbit := true; failbit := true |}.
  split; [reflexivity|].
  apply (file_read_to_end w two_records [0; 5; 10] (open_stream three_lines)
           "q" [] (initial_state []) _ (snd run)); reflexivity.
Defined.

(** ** A query file named [stdin] *)

(** [locateQueries] as a pass over the numbered lines. *)
Lemma locateQueries_by_line `{TextIndex} (w : World) (fmIndex : Index)
    (recordStarts : vector) (queriesData : istream) (sourceName : string)
    (queryBuffer : bytes) (s : State) :
  bind (locateQueries w fmIndex recordStarts queriesData sourceName queryBuffer)
    (fun _ => ret tt) s
  = (log (InfoProcessing sourceName) ;;
     numHits <- locate_lines w fmIndex recordStarts sourceName
                  (number_lines (pending_lines queriesData) 0) 0 ;;
     log (InfoFinished sourceName numHits)) s.
Proof.
  assert (Hfuel : (length (pending_lines queriesData)
                   < S (S (length (buf queriesData))))%nat)
    by (pose proof (pending_lines_length queriesData); lia).
  unfold locateQueries, bind, ret, log.
  rewrite <- (locateQueries_loop_by_line w fmIndex recordStarts sourceName
                _ queriesData queryBuffer 0 0 _ Hfuel).
  unfold bind, ret.
  match goal with
  | |- context [locateQueries_loop ?a ?b ?c ?d ?e ?f ?g ?h ?i ?j] =>
      destruct (locateQueries_loop a b c d e f g h i j) as [[[qd n]| | |] s1]
  end; reflexivity.
Qed.

Lemma locate_line_frame `{TextIndex} fmIndex recordStarts sourceName item
    numHits s :
  exists rows,
    snd (locate_line fmIndex recordStarts sourceName item numHits s)
    = add_rows s rows.
Proof.
  destruct item as [[queryId query]|].
  - unfold locate_line, bind, ret.
    destruct (locateQuery_frame fmIndex recordStarts sourceName queryId query s)
      as [rows Hrows].
    exists rows.
    destruct (locateQuery fmIndex recordStarts sourceName queryId query s)
      as [[n| | |] s1]; exact Hrows.
  - exists []. simpl. now rewrite add_rows_nil.
Qed.

Lemma pending_lines_open (content : bytes) :
  exists first rest, pending_lines (open_stream content) = first :: rest.
Proof.
  unfold pending_lines, open_stream, stream_ok. cbn [failbit eofbit buf negb andb].
  destruct content as [|c content]; cbn [lines_from]; [now exists [], []|].
  destruct (Ascii.eqb c LF); [now eexists _, _|].
  pose proof (lines_from_count content ([] ++ [c])) as Hcount.
  destruct (lines_from ([] ++ [c]) content) as [|first rest];
    [|now exists first, rest].
  unfold num_terminators in Hcount. simpl in Hcount. lia.
Qed.

(** X6.  The availability check of standard input goes by the name of the
    source, and a query file named [stdin] falls under it: when no data is
    available on standard input after the first line of such a file, the
    file is given up there; only its first line is located. *)
Theorem file_named_stdin `{TextIndex} (w : World) (fmIndex : Index)
    (recordStarts : vector) (content queryBuffer : bytes) (s : State) :
  query_data w "stdin" = Some content ->
  poll w (polls s) <= 0 ->
  main_files w fmIndex recordStarts ["stdin"%string] queryBuffer s
  = (log (InfoProcessing "stdin") ;;
     numHits <- locate_line fmIndex recordStarts "stdin"
                  (hd None (number_lines (pending_lines (open_stream content)) 0))
                  0 ;;
     hasStdin w ;;
     log (InfoFinished "stdin" numHits)) s.
Proof.
  intros Hfile Hpoll.
  assert (Hfiles : main_files w fmIndex recordStarts ["stdin"%string] queryBuffer s
                   = bind (locateQueries w fmIndex recordStarts
                             (open_stream content) "stdin" queryBuffer)
                       (fun _ => ret tt) s).
  { cbn [main_files]. rewrite Hfile. unfold bind, ret.
    destruct (locateQueries w fmIndex recordStarts (open_stream content)
                "stdin" queryBuffer s) as [[stream| | |] s1]; reflexivity. }
  rewrite Hfiles, locateQueries_by_line.
  destruct (pending_lines_open content) as (first & rest & ->).
  set (items := number_lines (first :: rest) 0).
  assert (Hitems : exists item others, items = item :: others)
    by (unfold items; destruct first; cbn [number_lines]; eauto).
  destruct Hitems as (item & others & ->). cbn [hd locate_lines].
  apply Z.ltb_ge in Hpoll.
  change (String.eqb "stdin" "stdin") with true. cbv iota.
  unfold bind, log, ret, hasStdin.
  match goal with
  | |- context [locate_line ?a ?b ?c ?d ?e ?f] =>
      destruct (locate_line_frame a b c d e f) as [rows Hrows];
      destruct (locate_line a b c d e f) as [[n| | |] s2]
  end; try reflexivity.
  cbn [snd] in Hrows. subst s2. cbn [polls add_rows out err cin].
  rewrite Hpoll. reflexivity.
Qed.

Lemma file_named_stdin_witness :
  let w := first_run two_records [("stdin"%string, three_lines)] (fun _ => 0) in
  map print_hit
    (out (snd (main_files w two_records [0; 5; 10] ["stdin"%string] []
                 (initial_state []))))
  = [tsv ["stdin"; "0"; "4"; "0"; "0"; "3"]%string;
     tsv ["stdin"; "1"; "4"; "0"; "0"; "3"]%string].
Proof.
  intros w.
  rewrite (file_named_stdin w two_records [0; 5; 10] three_lines []
             (initial_state []));
    reflexivity.
Defined.

(** ** Order and extent of the rows of a query *)

Lemma locateQuery_written `{TextIndex} (fmIndex : Index) (T : bytes)
    (starts : vector) (name : string) (qid : Z) (q : bytes) (s : State) :
  Indexes fmIndex T ->
  Z.of_nat (length T) < SizeT.modulus ->
  size starts < SizeT.modulus ->
  size_t_vector starts ->
  exists rows,
    snd (locateQuery fmIndex starts name qid q s) = add_rows s rows
    /\ Forall2 (hit_row_ok T starts name qid q)
         (firstn (length rows) (sort (locate fmIndex q))) rows.
Proof.
  intros Hidx Hfits Hsize Hvalues.
  assert (Hocc : Forall (occurs_at T q) (sort (locate fmIndex q))).
  { rewrite Forall_forall. intros b Hb.
    apply (locate_sound _ _ Hidx q b), (proj1 (sort_In _ _)), Hb. }
  destruct (locateQuery_loop_rows T starts name qid q Hfits Hsize Hvalues
              (sort (locate fmIndex q)) s Hocc)
    as (rows & Hstate & Hrows & _).
  exists rows. split; [|exact Hrows].
  unfold locateQuery, bind, ret.
  destruct (locateQuery_loop starts name qid q (sort (locate fmIndex q)) s)
    as [[[]| | |] s']; exact Hstate.
Qed.

Lemma rows_offsets T starts name qid q (hits : list Z) (rows : list Hit) :
  Forall2 (hit_row_ok T starts name qid q) hits rows ->
  map (row_offset starts) rows = hits.
Proof.
  induction 1 as [|b row hits rows Hrow Hrest IH]; [reflexivity|].
  cbn [map]. rewrite IH. f_equal.
  destruct Hrow as (_ & _ & _ & _ & Hbegin & _).
  unfold row_offset. lia.
Qed.

Lemma sorted_firstn (n : nat) (l : list Z) :
  StronglySorted Z.lt l -> StronglySorted Z.lt (firstn n l).
Proof.
  revert l. induction n as [|n IH]; intros l Hsorted; [constructor|].
  destruct Hsorted as [|x l Hsorted Hall]; [constructor|].
  cbn [firstn]. constructor; [apply IH, Hsorted|].
  rewrite Forall_forall in Hall |- *. intros y Hy.
  apply Hall. rewrite <- (firstn_skipn n l). apply in_or_app. left. exact Hy.
Qed.

(** X7.  The rows one query writes stand for distinct absolute offsets in
    strictly ascending order: they are the sorted results of [locate] up to
    the row count, whatever order the index delivers them in. *)
Theorem locateQuery_rows_ascending `{TextIndex} (fmIndex : Index) (T : bytes)
    (starts : vector) (name : string) (qid : Z) (q : bytes) (s : State) :
  Indexes fmIndex T ->
  Z.of_nat (length T) < SizeT.modulus ->
  size starts < SizeT.modulus ->
  size_t_vector starts ->
  exists rows,
    snd (locateQuery fmIndex starts name qid q s) = add_rows s rows
    /\ map (row_offset starts) rows
       = firstn (length rows) (sort (locate fmIndex q))
    /\ StronglySorted Z.lt (map (row_offset starts) rows).
Proof.
  intros Hidx Hfits Hsize Hvalues.
  destruct (locateQuery_written fmIndex T starts name qid q s Hidx Hfits Hsize
              Hvalues) as (rows & Hstate & Hrows).
  exists rows. split; [exact Hstate|].
  rewrite (rows_offsets _ _ _ _ _ _ _ Hrows). split; [reflexivity|].
  apply sorted_firstn, sort_sorted, (locate_nodup _ _ Hidx).
Qed.

Lemma locateQuery_rows_ascending_witness :
  exists rows,
    snd (locateQuery (H := ScanIndex) two_records [0; 5; 10] "q" 0
           (bytes_of "CG") (initial_state []))
    = add_rows (initial_state []) rows
    /\ map (row_offset [0; 5; 10]) rows
       = firstn (length rows)
           (sort (locate (TextIndex := ScanIndex) two_records (bytes_of "CG")))
    /\ StronglySorted Z.lt (map (row_offset [0; 5; 10]) rows).
Proof.
  apply (locateQuery_rows_ascending (H := ScanIndex) two_records two_records
           [0; 5; 10] "q" 0 (bytes_of "CG") (initial_state [])).
  - apply ScanIndex_indexes.
  - reflexivity.
  - reflexivity.
  - repeat constructor; vm_compute; discriminate.
Defined.

Lemma occurs_at_nth (T q : bytes) (b : Z) (k : nat) (d : byte) :
  occurs_at T q b -> (k < length q)%nat ->
  nth k q d = nth (Z.to_nat b + k) T d.
Proof.
  intros (_ & _ & E) Hk. rewrite <- E at 1.
  rewrite nth_firstn, (proj2 (Nat.ltb_lt _ _) Hk). apply nth_skipn.
Qed.

(** A match of a query without a terminator ends before the terminator
    of the record it starts in. *)
Lemma hit_inside_record (T q : bytes) (b r : Z) :
  let starts := 0 :: map (fun e => e + 1) (terminator_offsets T 0) in
  occurs_at T q b -> ~ In LF q -> in_record starts b r ->
  b + Z.of_nat (length q) <= at_ starts (r + 1) - 1.
Proof.
  intros starts Hocc Hq (Hr0 & Hr1 & _ & Hhi).
  unfold starts in Hr1. rewrite (starts_size T) in Hr1.
  unfold starts in Hhi |- *. rewrite (starts_entry T (r + 1)) in Hhi |- * by lia.
  replace (r + 1 - 1) with r in Hhi |- * by lia.
  set (e := at_ (terminator_offsets T 0) r) in *.
  assert (He : occurs_at T [LF] e).
  { rewrite <- (Z.sub_0_r e). apply terminator_offsets_In, at_In.
    rewrite (ends_size T). lia. }
  destruct (Z_le_gt_dec (b + Z.of_nat (length q)) e) as [Hle|Hgt]; [lia|].
  exfalso. apply Hq.
  pose proof Hocc as (Hb0 & _).
  assert (Hk : (Z.to_nat (e - b) < length q)%nat) by lia.
  assert (E1 : nth 0 [LF] LF = nth (Z.to_nat e + 0) T LF)
    by (apply occurs_at_nth; [exact He|simpl; lia]).
  pose proof (occurs_at_nth T q b _ LF Hocc Hk) as E2.
  replace (Z.to_nat b + Z.to_nat (e - b))%nat with (Z.to_nat e + 0)%nat in E2
    by lia.
  rewrite <- E1 in E2. cbn [nth] in E2. rewrite <- E2. apply nth_In, Hk.
Qed.

Lemma Forall2_right {A B} (R : A -> B -> Prop) (P : B -> Prop) l1 l2 :
  Forall2 R l1 l2 ->
  (forall a b, In a l1 -> R a b -> P b) ->
  Forall P l2.
Proof.
  induction 1 as [|a b l1 l2 Hab Hrest IH]; intros HP; constructor.
  - apply (HP a b); [left; reflexivity|exact Hab].
  - apply IH. intros a' b' Ha'. apply HP. right. exact Ha'.
Qed.

Lemma In_firstn {A} (n : nat) (l : list A) x : In x (firstn n l) -> In x l.
Proof.
  intros Hin. rewrite <- (firstn_skipn n l). apply in_or_app. left. exact Hin.
Qed.

Section BuiltTable.

Context `{TextIndex}.
Variable fmIndex : Index.
Variable T : bytes.
Variable starts : vector.

Hypothesis indexed : Indexes fmIndex T.
Hypothesis text_fits : Z.of_nat (length T) < SizeT.modulus.
Hypothesis count_fits : num_terminators T + 1 <= INT_MAX.
Hypothesis built : build_recordStarts fmIndex = Ret starts.

Lemma built_value : starts = 0 :: map (fun e => e + 1) (terminator_offsets T 0).
Proof.
  pose proof (build_recordStarts_value fmIndex T indexed text_fits count_fits)
    as Hvalue.
  rewrite built in Hvalue. now injection Hvalue.
Qed.

Lemma built_size : size starts = num_terminators T + 1.
Proof. rewrite built_value. apply starts_size. Qed.

Lemma built_size_fits : 1 <= size starts < SizeT.modulus.
Proof.
  rewrite built_size. assert (INT_MAX < SizeT.modulus) by reflexivity.
  unfold num_terminators in *. lia.
Qed.

Lemma built_increasing : strictly_increasing starts.
Proof.
  rewrite built_value. apply strictly_increasing_of_sorted, starts_sorted.
Qed.

Lemma built_values : size_t_vector starts.
Proof.
  rewrite built_value. constructor.
  - split; [lia|reflexivity].
  - rewrite Forall_forall. intros y Hy.
    apply in_map_iff in Hy as (e & <- & He).
    apply terminator_offsets_In in He as (H0 & Hlen & _).
    simpl length in Hlen. unfold SizeT.in_range. lia.
Qed.

(** On the built table an offset lies in a record exactly when it comes
    before the end of the last terminated record. *)
Lemma built_record_iff b :
  0 <= b ->
  (exists j, in_record starts b j) <-> b < at_ starts (num_terminators T).
Proof.
  intros Hb.
  assert (Hzero : at_ starts 0 = 0) by (rewrite built_value; reflexivity).
  assert (Hlast : size starts - 1 = num_terminators T)
    by (rewrite built_size; lia).
  split.
  - intros [j Hj].
    pose proof (in_record_between starts b built_increasing j Hj) as Hrange.
    rewrite Hlast in Hrange. lia.
  - intros Hlt. apply (in_record_exists starts b built_size_fits).
    rewrite Hlast, Hzero. lia.
Qed.

End BuiltTable.

(** X8.  With the table built from the index, the rows of a non-empty query
    that holds no terminator (every query read by [getline] is one) lie
    inside the text of their record: [0 <= hitBegin < hitEnd <= recordLength].
    Such a query is never reported across a record boundary. *)
Theorem query_stays_in_record `{TextIndex} (fmIndex : Index) (T : bytes)
    (starts : vector) (name : string) (qid : Z) (q : bytes) (s : State) :
  Indexes fmIndex T ->
  Z.of_nat (length T) < SizeT.modulus ->
  num_terminators T + 1 <= INT_MAX ->
  build_recordStarts fmIndex = Ret starts ->
  q <> [] ->
  ~ In LF q ->
  exists rows,
    snd (locateQuery fmIndex starts name qid q s) = add_rows s rows
    /\ Forall (fun row => 0 <= row_hitBegin row < row_hitEnd row
                          /\ row_hitEnd row <= row_recordLength row) rows.
Proof.
  intros Hidx Hfits Hcount Hbuilt Hq Hline.
  pose proof (built_size_fits fmIndex T starts Hidx Hfits Hcount Hbuilt) as Hsize.
  destruct (locateQuery_written fmIndex T starts name qid q s Hidx Hfits
              ltac:(lia)
              (built_values fmIndex T starts Hidx Hfits Hcount Hbuilt))
    as (rows & Hstate & Hrows).
  exists rows. split; [exact Hstate|].
  apply (Forall2_right _ _ _ _ Hrows). intros b row Hb Hrow.
  apply In_firstn, (proj1 (sort_In _ _)), (locate_sound _ _ Hidx) in Hb.
  destruct Hrow as (_ & _ & Hin & Hlength & Hbegin & Hend & _).
  pose proof Hin as (_ & _ & Hlo & _).
  rewrite (built_value fmIndex T starts Hidx Hfits Hcount Hbuilt) in Hin.
  pose proof (hit_inside_record T q b _ Hb Hline Hin) as Hinside.
  rewrite <- (built_value fmIndex T starts Hidx Hfits Hcount Hbuilt) in Hinside.
  assert (0 < Z.of_nat (length q)) by (destruct q; [contradiction|simpl; lia]).
  lia.
Qed.

Lemma query_stays_in_record_witness :
  exists rows,
    snd (locateQuery (H := ScanIndex) two_records [0; 5; 10] "q" 0
           (bytes_of "GA") (initial_state []))
    = add_rows (initial_state []) rows
    /\ Forall (fun row => 0 <= row_hitBegin row < row_hitEnd row
                          /\ row_hitEnd row <= row_recordLength row) rows.
Proof.
  apply (query_stays_in_record (H := ScanIndex) two_records two_records
           [0; 5; 10] "q" 0 (bytes_of "GA") (initial_state [])).
  - apply ScanIndex_indexes.
  - reflexivity.
  - vm_compute. discriminate.
  - reflexivity.
  - discriminate.
  - vm_compute. intuition discriminate.
Defined.

(** ** Hits that no record holds *)

Section LoopOutcome.

Variable T : bytes.
Variable starts : vector.
Variable name : string.
Variable qid : Z.
Variable q : bytes.

Hypothesis text_fits : Z.of_nat (length T) < SizeT.modulus.
Hypothesis size_fits : 1 <= size starts < SizeT.modulus.
Hypothesis starts_values : size_t_vector starts.

(** On a non-empty table the loop of [locateQuery] returns when every
    location lies in a record, and throws at the first that does not. *)
Lemma locateQuery_loop_outcome locations :
  forall s,
    Forall (occurs_at T q) locations ->
    (fst (locateQuery_loop starts name qid q locations s) = Ret tt
     /\ forall b, In b locations -> exists j, in_record starts b j)
    \/ (fst (locateQuery_loop starts name qid q locations s) = Throw invalid_hit
        /\ exists b, In b locations /\ forall j, ~ in_record starts b j).
Proof.
  induction locations as [|b rest IH]; intros s Hocc.
  - left. split; [reflexivity|intros b []].
  - inversion Hocc as [|? ? Hb Hrest]; subst.
    cbn [locateQuery_loop]. unfold bind.
    destruct (locateQuery_hit_row T starts name qid q text_fits
                ltac:(lia) starts_values b s Hb)
      as [(row & Ehit & Hrow)|[[Ehit Hnone]|[Ehit Hempty]]];
      rewrite Ehit; cbv beta iota.
    + destruct (IH (add_rows s [row]) Hrest) as [[Hret Hall]|[Hthrow Hbad]].
      * left. split; [exact Hret|].
        intros b' [<-|Hb']; [|apply Hall, Hb'].
        destruct Hrow as (_ & _ & Hin & _). eexists. exact Hin.
      * right. split; [exact Hthrow|].
        destruct Hbad as (b' & Hb' & Hnone). exists b'. split; [right|]; assumption.
    + right. split; [reflexivity|]. exists b. split; [left; reflexivity|exact Hnone].
    + subst starts. unfold size in size_fits. simpl in size_fits. lia.
Qed.

End LoopOutcome.

(** X9.  With the table built from the index, a query ends in the exception
    of [findSourceId] exactly when one of its occurrences starts at or after
    the end of the last terminated record, that is in a last line without
    terminator; otherwise it returns the number of occurrences.  (Rows for
    earlier occurrences are written before the exception.) *)
Theorem hit_in_unterminated_line `{TextIndex} (fmIndex : Index) (T : bytes)
    (starts : vector) (name : string) (qid : Z) (q : bytes) (s : State) :
  Indexes fmIndex T ->
  Z.of_nat (length T) < SizeT.modulus ->
  num_terminators T + 1 <= INT_MAX ->
  build_recordStarts fmIndex = Ret starts ->
  fst (locateQuery fmIndex starts name qid q s)
  = if existsb (fun b => at_ starts (num_terminators T) <=? b) (locate fmIndex q)
    then Throw invalid_hit
    else Ret (size (locate fmIndex q)).
Proof.
  intros Hidx Hfits Hcount Hbuilt.
  assert (Hocc : Forall (occurs_at T q) (sort (locate fmIndex q))).
  { rewrite Forall_forall. intros b Hb.
    apply (locate_sound _ _ Hidx q b), (proj1 (sort_In _ _)), Hb. }
  pose proof (locateQuery_loop_outcome T starts name qid q Hfits
                (built_size_fits fmIndex T starts Hidx Hfits Hcount Hbuilt)
                (built_values fmIndex T starts Hidx Hfits Hcount Hbuilt)
                (sort (locate fmIndex q)) s Hocc) as Hloop.
  assert (Hrecord : forall b, In b (locate fmIndex q) ->
             (exists j, in_record starts b j)
             <-> b < at_ starts (num_terminators T)).
  { intros b Hb.
    apply (built_record_iff fmIndex T starts Hidx Hfits Hcount Hbuilt).
    apply (locate_sound _ _ Hidx) in Hb as (Hb0 & _). exact Hb0. }
  unfold locateQuery, bind, ret.
  destruct (locateQuery_loop starts name qid q (sort (locate fmIndex q)) s)
    as [o s'].
  cbn [fst] in Hloop |- *.
  destruct (existsb (fun b => at_ starts (num_terminators T) <=? b)
              (locate fmIndex q)) eqn:Etail.
  - apply existsb_exists in Etail as (b & Hb & Hle). apply Z.leb_le in Hle.
    destruct Hloop as [[_ Hall]|[-> _]]; [|reflexivity].
    destruct (Hall b (proj2 (sort_In _ _) Hb)) as [j Hj].
    assert (b < at_ starts (num_terminators T))
      by (apply (Hrecord b Hb); now exists j).
    lia.
  - destruct Hloop as [[-> _]|[_ (b & Hb & Hnone)]].
    + cbn [fst]. f_equal. unfold size. now rewrite sort_length.
    + apply (proj1 (sort_In _ _)) in Hb.
      assert (Hfalse : (at_ starts (num_terminators T) <=? b) = false).
      { destruct (at_ starts (num_terminators T) <=? b) eqn:E; [|reflexivity].
        assert (Hex : existsb (fun b => at_ starts (num_terminators T) <=? b)
                        (locate fmIndex q) = true)
          by (apply existsb_exists; exists b; split; assumption).
        rewrite Hex in Etail. discriminate. }
      apply Z.leb_gt in Hfalse.
      destruct (proj2 (Hrecord b Hb) Hfalse) as [j Hj]. destruct (Hnone j Hj).
Qed.

Lemma hit_in_unterminated_line_witness :
  let T := bytes_of "ACGT" ++ [LF] ++ bytes_of "ACGA" in
  fst (locateQuery (H := ScanIndex) T [0; 5] "q" 0 (bytes_of "ACG")
         (initial_state []))
  = Throw invalid_hit
  /\ map print_hit
       (out (snd (locateQuery (H := ScanIndex) T [0; 5] "q" 0 (bytes_of "ACG")
                    (initial_state []))))
     = [tsv ["q"; "0"; "4"; "0"; "0"; "3"]%string].
Proof.
  intros T. split; [|reflexivity].
  rewrite (hit_in_unterminated_line (H := ScanIndex) T T [0; 5] "q" 0
             (bytes_of "ACG") (initial_state [])).
  - reflexivity.
  - apply ScanIndex_indexes.
  - reflexivity.
  - vm_compute. discriminate.
  - reflexivity.
Defined.

(** ** The summary line of a source *)

Lemma locateQuery_hit_one_row starts name qid q b s :
  (exists row,
      locateQuery_hit starts name qid q b s = (Ret tt, add_rows s [row])
      /\ row_source row = name /\ row_queryId row = qid)
  \/ (snd (locateQuery_hit starts name qid q b s) = s
      /\ forall u, fst (locateQuery_hit starts name qid q b s) <> Ret u).
Proof.
  unfold locateQuery_hit, bind, lift, lift_access, ret, undefined, print.
  destruct (findSourceId starts b) as [r| | |];
    try (right; split; [reflexivity|discriminate]).
  destruct (vec_at starts r); [|right; split; [reflexivity|discriminate]].
  destruct (vec_at starts (SizeT.add r 1));
    [|right; split; [reflexivity|discriminate]].
  left. eexists. split; [reflexivity|]. split; reflexivity.
Qed.

Lemma locateQuery_loop_count starts name qid q locations :
  forall s s',
    locateQuery_loop starts name qid q locations s = (Ret tt, s') ->
    exists rows,
      s' = add_rows s rows
      /\ length rows = length locations
      /\ Forall (fun row => row_source row = name /\ row_queryId row = qid) rows.
Proof.
  induction locations as [|b rest IH]; intros s s' Hrun.
  - injection Hrun as <-. exists []. rewrite add_rows_nil.
    repeat split. constructor.
  - cbn [locateQuery_loop] in Hrun. unfold bind in Hrun.
    destruct (locateQuery_hit_one_row starts name qid q b s)
      as [(row & Ehit & Hsource & Hid)|[_ Hfail]].
    + rewrite Ehit in Hrun.
      apply IH in Hrun as (rows & -> & Hlen & Hall).
      exists (row :: rows). rewrite add_rows_app.
      split; [reflexivity|]. split; [simpl; lia|].
      constructor; [split; assumption|exact Hall].
    + destruct (locateQuery_hit starts name qid q b s) as [[[]| | |] s1];
        try discriminate.
      destruct (Hfail tt). reflexivity.
Qed.

Section Summary.

Context `{TextIndex}.
Variable w : World.
Variable fmIndex : Index.
Variable recordStarts : vector.
Variable sourceName : string.

Lemma locate_line_count item numHits s n s' :
  SizeT.in_range numHits ->
  locate_line fmIndex recordStarts sourceName item numHits s = (Ret n, s') ->
  exists rows,
    s' = add_rows s rows
    /\ n = SizeT.wrap (numHits + Z.of_nat (length rows))
    /\ Forall (fun row => row_source row = sourceName) rows.
Proof.
  destruct item as [[queryId query]|]; intros Hrange Hrun.
  - unfold locate_line, locateQuery, bind, ret in Hrun.
    destruct (locateQuery_loop recordStarts sourceName queryId query
                (sort (locate fmIndex query)) s) as [[[]| | |] s1] eqn:Eloop;
      try discriminate.
    injection Hrun as <- <-.
    apply locateQuery_loop_count in Eloop as (rows & -> & Hlen & Hall).
    exists rows. split; [reflexivity|]. split.
    + unfold size. now rewrite Hlen.
    + apply (Forall_impl _ (fun row Hrow => proj1 Hrow) Hall).
  - injection Hrun as <- <-. exists []. rewrite add_rows_nil.
    cbn [length Z.of_nat]. rewrite Z.add_0_r, wrap_small by exact Hrange.
    repeat split. constructor.
Qed.

(** A pass over the lines that returns has added to the count the number of
    rows it wrote, on [size_t]. *)
Lemma locate_lines_count items :
  forall numHits s n s',
    SizeT.in_range numHits ->
    locate_lines w fmIndex recordStarts sourceName items numHits s = (Ret n, s') ->
    exists rows,
      out s' = out s ++ rows
      /\ err s' = err s
      /\ n = SizeT.wrap (numHits + Z.of_nat (length rows))
      /\ Forall (fun row => row_source row = sourceName) rows.
Proof.
  induction items as [|item rest IH]; intros numHits s n s' Hrange Hrun.
  - injection Hrun as <- <-. exists []. rewrite app_nil_r.
    cbn [length Z.of_nat]. rewrite Z.add_0_r, wrap_small by exact Hrange.
    repeat split. constructor.
  - cbn [locate_lines] in Hrun. unfold bind at 1 in Hrun.
    destruct (locate_line fmIndex recordStarts sourceName item numHits s)
      as [[n1| | |] s1] eqn:Eline; try discriminate.
    apply locate_line_count in Eline as (rows1 & -> & Hn1' & Hall1);
      [|exact Hrange].
    assert (Hnext : forall s2 (Hs2 : out s2 = out s ++ rows1 /\ err s2 = err s),
               locate_lines w fmIndex recordStarts sourceName rest n1 s2 = (Ret n, s') ->
               exists rows,
                 out s' = out s ++ rows /\ err s' = err s
                 /\ n = SizeT.wrap (numHits + Z.of_nat (length rows))
                 /\ Forall (fun row => row_source row = sourceName) rows).
    { intros s2 [Hout Herr] Hrest.
      apply IH in Hrest as (rows2 & Hout2 & Herr2 & Hn & Hall2);
        [|rewrite Hn1'; apply wrap_range].
      exists (rows1 ++ rows2). rewrite Hout2, Herr2, Hout, Herr, app_assoc.
      split; [reflexivity|]. split; [reflexivity|]. split.
      - rewrite Hn, Hn1', length_app, Nat2Z.inj_add.
        unfold SizeT.wrap. rewrite Zplus_mod_idemp_l. f_equal. lia.
      - apply Forall_app. split; assumption. }
    assert (Hstop : forall s2 (Hs2 : out s2 = out s ++ rows1 /\ err s2 = err s),
               (Ret n1, s2) = (Ret n, s') ->
               exists rows,
                 out s' = out s ++ rows /\ err s' = err s
                 /\ n = SizeT.wrap (numHits + Z.of_nat (length rows))
                 /\ Forall (fun row => row_source row = sourceName) rows).
    { intros s2 [Hout Herr] E. injection E as <- <-.
      exists rows1. repeat split; assumption. }
    unfold bind, ret, hasStdin in Hrun.
    destruct (String.eqb sourceName "stdin").
    + cbn [polls add_rows] in Hrun.
      destruct (0 <? poll w (polls s)); cbn [negb] in Hrun.
      * eapply Hnext; [|exact Hrun]. split; reflexivity.
      * eapply Hstop; [|exact Hrun]. split; reflexivity.
    + eapply Hnext; [|exact Hrun]. split; reflexivity.
Qed.

End Summary.

(** X10.  A call of [locateQueries] that returns has written two lines to
    the diagnostic stream, the announcement and the summary, and the
    [numHits] of the summary is the number of rows the call wrote to
    standard output (as a [size_t]); these rows all carry the name of the
    source. *)
Theorem summary_counts_rows `{TextIndex} (w : World) (fmIndex : Index)
    (recordStarts : vector) (queriesData : istream) (sourceName : string)
    (queryBuffer : bytes) (s : State) (queriesData' : istream) (s' : State) :
  locateQueries w fmIndex recordStarts queriesData sourceName queryBuffer s
  = (Ret queriesData', s') ->
  exists rows,
    out s' = out s ++ rows
    /\ err s'
       = err s ++ [InfoProcessing sourceName;
                   InfoFinished sourceName
                     (SizeT.wrap (Z.of_nat (length rows)))]
    /\ Forall (fun row => row_source row = sourceName) rows.
Proof.
  intros Hrun.
  pose proof (locateQueries_by_line w fmIndex recordStarts queriesData
                sourceName queryBuffer s) as Hline.
  unfold bind at 1 in Hline. rewrite Hrun in Hline.
  unfold bind, log, ret in Hline.
  match type of Hline with
  | context [locate_lines ?a ?b ?c ?d ?e ?f ?g] =>
      destruct (locate_lines a b c d e f g) as [[n| | |] s2] eqn:Elines
  end; try discriminate.
  apply locate_lines_count in Elines as (rows & Hout & Herr & Hn & Hall);
    [|split; [lia|reflexivity]].
  injection Hline as ->. cbn [out err] in Hout, Herr |- *.
  exists rows. rewrite Hout, Herr, Hn, <- app_assoc. repeat split. exact Hall.
Qed.

Lemma summary_counts_rows_witness :
  let w := first_run two_records [] (fun _ => 0) in
  let run := locateQueries w two_records [0; 5; 10] (open_stream three_lines)
               "q" [] (initial_state []) in
  exists rows,
    out (snd run) = [] ++ rows
    /\ err (snd run)
       = [] ++ [InfoProcessing "q";
                InfoFinished "q" (SizeT.wrap (Z.of_nat (length rows)))]
    /\ Forall (fun row => row_source row = "q"%string) rows.
Proof.
  intros w run.
  apply (summary_counts_rows w two_records [0; 5; 10] (open_stream three_lines)
           "q" [] (initial_state [])
           {| buf := []; eofbit := true; failbit := true |} (snd run)).
  reflexivity.
Defined.

(** ** Every run ends *)






Section RunEnds.

Context `{TextIndex}.
Variable w : World.

Hypothesis construct_ends : forall text, construct text <> OutOfFuel.
Hypothesis loaded_size :
  forall file recordStarts,
    load_plain_array w file = Some recordStarts ->
    size recordStarts < SizeT.modulus.







End RunEnds.



(** ** Before the queries *)

Section Setup.

Context `{TextIndex}.
Variable w : World.

(** What the setup leaves alone: standard output, the poll count and
    standard input. *)
Let quiet (s s' : State) : Prop :=
  out s' = out s /\ polls s' = polls s /\ cin s' = cin s.

Lemma main_args_Some argv s positionalBegin s1 :
  main_args w argv s = (Ret (Some positionalBegin), s1) ->
  s1 = s
  /\ (exists dir, parseArgs w argv = Ret (positionalBegin, dir))
  /\ 1 <= Z.of_nat (length argv) - positionalBegin.
Proof.
  unfold main_args, try_catch, bind, lift, throw, ret, printUsage, log.
  destruct (parseArgs w argv) as [[i dir]|[what|what|]| |]; try discriminate.
  destruct (Z.of_nat (length argv) - i <? 1) eqn:E; [discriminate|].
  intros Hrun. injection Hrun as <- <-. apply Z.ltb_ge in E.
  split; [reflexivity|]. split; [now exists dir|lia].
Qed.

Lemma main_args_quiet argv s : quiet s (snd (main_args w argv s)).
Proof.
  unfold main_args, try_catch, bind, lift, throw, ret, printUsage, log.
  destruct (parseArgs w argv) as [[i dir]|[what|what|]| |];
    try (repeat split; fail).
  destruct (Z.of_nat (length argv) - i <? 1); repeat split.
Qed.

Lemma buildIndex_quiet referenceFile s :
  quiet s (snd (buildIndex w referenceFile s)).
Proof.
  unfold buildIndex.
  destruct (load_index w (referenceFile ++ ".fm9")); [repeat split|].
  destruct (reference_data w referenceFile) as [text|]; [|repeat split].
  unfold bind, log, lift, ret. destruct (construct text); repeat split.
Qed.

Lemma getRecordStarts_quiet fmIndex referenceFile s :
  quiet s (snd (getRecordStarts w fmIndex referenceFile s)).
Proof.
  unfold getRecordStarts.
  destruct (load_plain_array w (referenceFile ++ ".idx")); [repeat split|].
  unfold bind, log, lift, ret, throw.
  destruct (build_recordStarts fmIndex); try (repeat split; fail).
  destruct (negb (store_plain_array w (referenceFile ++ ".idx"))); repeat split.
Qed.

(** The handlers of [main] write to the diagnostic stream only. *)
Lemma main_quiet_after_body argv s :
  quiet (snd (main_body w argv s)) (snd (main w argv s)).
Proof.
  unfold main, try_catch.
  destruct (main_body w argv s) as [[code|[what|what|]| |] s1]; repeat split.
Qed.

Lemma no_queries_body argv s :
  (forall i dir, parseArgs w argv = Ret (i, dir) ->
                 Z.of_nat (length argv) - i - 1 <= 0) ->
  poll w (polls s) <= 0 ->
  out (snd (main_body w argv s)) = out s
  /\ cin (snd (main_body w argv s)) = cin s
  /\ (polls (snd (main_body w argv s)) <= S (polls s))%nat.
Proof.
  intros Hnone Hpoll. unfold main_body, bind, ret.
  pose proof (main_args_quiet argv s) as (Hout1 & Hpolls1 & Hcin1).
  destruct (main_args w argv s) as [[[positionalBegin|]| | |] s1] eqn:Eargs;
    cbn [snd] in Hout1, Hpolls1, Hcin1;
    try (cbn [snd]; rewrite Hout1, Hpolls1, Hcin1; repeat split; lia).
  apply main_args_Some in Eargs as (-> & (dir & Hparse) & _).
  specialize (Hnone _ _ Hparse).
  unfold lift_access, ret, undefined, lift.
  destruct (nth_error argv (Z.to_nat positionalBegin)) as [referenceFile|];
    [|cbn [snd]; repeat split; lia].
  pose proof (buildIndex_quiet referenceFile s) as (Hout2 & Hpolls2 & Hcin2).
  destruct (buildIndex w referenceFile s) as [[fmIndex| | |] s2];
    cbn [snd] in Hout2, Hpolls2, Hcin2;
    try (cbn [snd]; rewrite Hout2, Hpolls2, Hcin2; repeat split; lia).
  pose proof (getRecordStarts_quiet fmIndex referenceFile s2)
    as (Hout3 & Hpolls3 & Hcin3).
  destruct (getRecordStarts w fmIndex referenceFile s2)
    as [[recordStarts| | |] s3];
    cbn [snd] in Hout3, Hpolls3, Hcin3;
    try (cbn [snd]; rewrite Hout3, Hout2, Hpolls3, Hpolls2, Hcin3, Hcin2;
         repeat split; lia).
  unfold main_queries, bind, hasStdin, ret.
  rewrite Hpolls3, Hpolls2. apply Z.ltb_ge in Hpoll. rewrite Hpoll.
  replace (Z.max 0 (Z.of_nat (length argv) - positionalBegin - 1)) with 0 by lia.
  cbn [negb andb Z.eqb snd out cin polls].
  rewrite Hout3, Hout2, Hcin3, Hcin2. repeat split. lia.
Qed.

End Setup.

(** X12.  No queries, no output: when no argument follows the reference
    and the first availability check finds no data on standard input, a run
    writes nothing to standard output and reads nothing from standard
    input, whether it ends well or not; it checks standard input once at
    most. *)
Theorem no_queries_no_output `{TextIndex} (w : World) (argv : list string)
    (s : State) :
  (forall i dir, parseArgs w argv = Ret (i, dir) ->
                 Z.of_nat (length argv) - i - 1 <= 0) ->
  poll w (polls s) <= 0 ->
  out (snd (main w argv s)) = out s
  /\ cin (snd (main w argv s)) = cin s
  /\ (polls (snd (main w argv s)) <= S (polls s))%nat.
Proof.
  intros Hnone Hpoll.
  destruct (no_queries_body w argv s Hnone Hpoll) as (Hout & Hcin & Hpolls).
  destruct (main_quiet_after_body w argv s) as (Hout' & Hpolls' & Hcin').
  rewrite Hout', Hcin', Hpolls'. repeat split; assumption.
Qed.

Lemma no_queries_no_output_witness :
  let run := main (first_run two_records [] (fun _ => 0))
               ["fm-index"; "ref"]%string (initial_state three_lines) in
  out (snd run) = []
  /\ cin (snd run) = open_stream three_lines
  /\ (polls (snd run) <= 1)%nat.
Proof.
  intros run.
  apply (no_queries_no_output (first_run two_records [] (fun _ => 0))
           ["fm-index"; "ref"]%string (initial_state three_lines)).
  - intros i dir Hparse. vm_compute in Hparse. injection Hparse as <- _.
    vm_compute. discriminate.
  - vm_compute. discriminate.
Defined.

(** X13.  A reference file that cannot be opened, when no cached index
    loads: the run ends with exit code 2 and the one line
    [error: File `<reference>` does not exist.]; nothing else happens (no
    row, no availability check, no read, no further line). *)
Theorem reference_missing_run `{TextIndex} (w : World) (argv : list string)
    (s : State) (i : Z) (dir referenceFile : string) :
  parseArgs w argv = Ret (i, dir) ->
  nth_error argv (Z.to_nat i) = Some referenceFile ->
  1 <= Z.of_nat (length argv) - i ->
  load_index w (referenceFile ++ ".fm9") = None ->
  reference_data w referenceFile = None ->
  main w argv s
  = (Ret 2,
     add_diag s (ErrorLine ("File `" ++ referenceFile ++ "` does not exist."))).
Proof.
  intros Hparse Hreference Hargs Hload Hdata.
  unfold main, try_catch, main_body, bind.
  assert (Hmain_args : main_args w argv s = (Ret (Some i), s)).
  { unfold main_args, try_catch, bind, lift. rewrite Hparse.
    destruct (Z.of_nat (length argv) - i <? 1) eqn:E; [|reflexivity].
    apply Z.ltb_lt in E. lia. }
  rewrite Hmain_args, Hreference. unfold lift_access, ret, buildIndex.
  rewrite Hload, Hdata. reflexivity.
Qed.

Lemma reference_missing_run_witness :
  main (scenario None None None true true [] (fun _ => 1))
    ["fm-index"; "ref"; "q"]%string (initial_state three_lines)
  = (Ret 2,
     add_diag (initial_state three_lines)
       (ErrorLine ("File `" ++ "ref" ++ "` does not exist."))).
Proof.
  apply (reference_missing_run (scenario None None None true true [] (fun _ => 1))
           ["fm-index"; "ref"; "q"]%string (initial_state three_lines)
           1 "/tmp" "ref"); try reflexivity.
  vm_compute. discriminate.
Defined.

Lemma sort_insert_cons x l : exists y l', sort_insert x l = y :: l'.
Proof.
  destruct l as [|z l]; cbn [sort_insert]; [now eexists _, _|].
  destruct (x <=? z); now eexists _, _.
Qed.

(** X14.  On an empty table of record starts (a cached [.idx] file that
    loads with no entry) a query without occurrence returns 0 and writes
    nothing, and a query with an occurrence reads outside the table at its
    first hit: undefined behaviour, not the exception of [findSourceId]. *)
Theorem locateQuery_empty_table `{TextIndex} (fmIndex : Index) (name : string)
    (qid : Z) (q : bytes) (s : State) :
  locateQuery fmIndex [] name qid q s
  = (match locate fmIndex q with
     | [] => Ret 0
     | _ :: _ => Undefined
     end, s).
Proof.
  unfold locateQuery, bind, ret.
  destruct (locate fmIndex q) as [|b rest]; [reflexivity|].
  cbn [sort]. destruct (sort_insert_cons b (sort rest)) as (y & l' & ->).
  reflexivity.
Qed.

(** ** Caches *)

Lemma main_args_accepts `{TextIndex} (w : World) argv s i dir :
  parseArgs w argv = Ret (i, dir) ->
  1 <= Z.of_nat (length argv) - i ->
  main_args w argv s = (Ret (Some i), s).
Proof.
  intros Hparse Hargs. unfold main_args, try_catch, bind, lift. rewrite Hparse.
  destruct (Z.of_nat (length argv) - i <? 1) eqn:E; [|reflexivity].
  apply Z.ltb_lt in E. lia.
Qed.

(** X15.  A cached index is trusted: when the index file of the reference
    loads, the run does not look at the reference file at all; it is the
    same run whether the reference file exists, is missing or has changed
    since the index was built. *)
Theorem cached_index_trusted `{TextIndex} (w : World) (argv : list string)
    (s : State) (i : Z) (dir referenceFile : string) (fmIndex : Index)
    (data : string -> option bytes) :
  parseArgs w argv = Ret (i, dir) ->
  nth_error argv (Z.to_nat i) = Some referenceFile ->
  load_index w (referenceFile ++ ".fm9") = Some fmIndex ->
  main (with_reference w data) argv s = main w argv s.
Proof.
  intros Hparse Hreference Hload.
  assert (Hparse' : parseArgs (with_reference w data) argv = Ret (i, dir))
    by (destruct w; exact Hparse).
  unfold main, try_catch. f_equal.
  unfold main_body, bind.
  destruct (Z_lt_ge_dec (Z.of_nat (length argv) - i) 1) as [Hnone|Hsome].
  - assert (Hargs : forall w', parseArgs w' argv = Ret (i, dir) ->
               main_args w' argv s
               = (printUsage ;; ret None)
                   (add_diag (add_diag s (ErrorLine "Missing arguments."))
                      BlankLine)).
    { intros w' Hw'. unfold main_args, try_catch, bind, lift. rewrite Hw'.
      apply Z.ltb_lt in Hnone. rewrite Hnone. reflexivity. }
    now rewrite (Hargs _ Hparse), (Hargs _ Hparse').
  - apply Z.ge_le in Hsome.
    rewrite (main_args_accepts w argv s i dir Hparse Hsome).
    rewrite (main_args_accepts _ argv s i dir Hparse' Hsome).
    rewrite Hreference. unfold lift_access, ret, buildIndex.
    change (load_index (with_reference w data) (referenceFile ++ ".fm9"))
      with (load_index w (referenceFile ++ ".fm9")).
    rewrite Hload. destruct w. reflexivity.
Qed.

Lemma cached_index_trusted_witness :
  main (with_reference
          (scenario (Some two_records) (Some two_records) None true true []
             (fun _ => 1))
          (fun _ => None))
    ["fm-index"; "ref"]%string (initial_state three_lines)
  = main (scenario (Some two_records) (Some two_records) None true true []
            (fun _ => 1))
      ["fm-index"; "ref"]%string (initial_state three_lines).
Proof.
  apply (cached_index_trusted
           (scenario (Some two_records) (Some two_records) None true true []
              (fun _ => 1))
           ["fm-index"; "ref"]%string (initial_state three_lines)
           1 "/tmp" "ref" two_records (fun _ => None)); reflexivity.
Defined.

(** X16.  A table of record starts that cannot be written: the run ends
    with exit code 2 after the index is there, with the announcement of the
    build and the error line as its last lines, before any availability
    check and any query. *)
Theorem record_index_unwritable_run `{TextIndex} (w : World)
    (argv : list string) (s s2 : State) (i : Z) (dir referenceFile : string)
    (fmIndex : Index) (recordStarts : vector) :
  parseArgs w argv = Ret (i, dir) ->
  nth_error argv (Z.to_nat i) = Some referenceFile ->
  1 <= Z.of_nat (length argv) - i ->
  buildIndex w referenceFile s = (Ret fmIndex, s2) ->
  load_plain_array w (referenceFile ++ ".idx") = None ->
  build_recordStarts fmIndex = Ret recordStarts ->
  store_plain_array w (referenceFile ++ ".idx") = false ->
  main w argv s
  = (Ret 2,
     add_diag
       (add_diag s2 (InfoRecordIndexMissing (referenceFile ++ ".idx")))
       (ErrorLine ("Could not store record index: " ++ referenceFile ++ ".idx"))).
Proof.
  intros Hparse Hreference Hargs Hindex Hload Hbuilt Hstore.
  unfold main, try_catch, main_body, bind.
  rewrite (main_args_accepts w argv s i dir Hparse Hargs), Hreference.
  unfold lift_access, ret. rewrite Hindex.
  unfold getRecordStarts. rewrite Hload. unfold bind, log, lift.
  rewrite Hbuilt, Hstore. reflexivity.
Qed.

Lemma record_index_unwritable_run_witness :
  fst (main (scenario (Some two_records) None None true false [] (fun _ => 1))
         ["fm-index"; "ref"; "q"]%string (initial_state three_lines))
  = Ret 2.
Proof.
  rewrite (record_index_unwritable_run
             (scenario (Some two_records) None None true false [] (fun _ => 1))
             ["fm-index"; "ref"; "q"]%string (initial_state three_lines)
             (snd (buildIndex
                     (scenario (Some two_records) None None true false []
                        (fun _ => 1))
                     "ref" (initial_state three_lines)))
             1 "/tmp" "ref" two_records [0; 5; 10]); try reflexivity.
  vm_compute. discriminate.
Defined.

(** X17.  The query files are processed in the order of the command line,
    each from the state the one before left, and an exception or undefined
    behaviour in one of them ends the loop: the files after it are not
    opened. *)
Theorem query_files_in_order `{TextIndex} (w : World) (fmIndex : Index)
    (recordStarts : vector) (queryBuffer : bytes) (pre post : list string)
    (s : State) :
  main_files w fmIndex recordStarts (pre ++ post) queryBuffer s
  = match main_files w fmIndex recordStarts pre queryBuffer s with
    | (Ret _, s1) => main_files w fmIndex recordStarts post queryBuffer s1
    | failed => failed
    end.
Proof.
  rewrite main_files_app. unfold bind.
  destruct (main_files w fmIndex recordStarts pre queryBuffer s)
    as [[[]| | |] s1]; reflexivity.
Qed.

(** X18.  A command line without a reference (nothing but [-P<dir>] options
    after the program name) is a usage error: exit code 1, the error line
    ("Missing arguments.", or the complaint about the directory of the last
    option when it does not exist), a blank line and the usage text;
    no index is looked for, nothing is written to standard output, polled or
    read. *)
Theorem missing_reference_argument `{TextIndex} (w : World)
    (argv : list string) (s : State) :
  Forall (fun a => is_P_option a = true) (tl argv) ->
  let dir := last (map arg_from2 (tl argv)) (getDefaultTempDir w) in
  main w argv s
  = (Ret 1,
     {| out := out s;
        err := err s
               ++ [ErrorLine
                     (if dirExists w dir then "Missing arguments."
                      else "Cannot open temporary directory: " ++ dir);
                   BlankLine; UsageText];
        polls := polls s; cin := cin s |}).
Proof.
  intros Hopts dir.
  assert (Hparse : parseArgs w argv
                   = if dirExists w dir
                     then Ret (1 + Z.of_nat (length (tl argv)), dir)
                     else Throw (FmIndexException
                                   ("Cannot open temporary directory: " ++ dir))).
  { unfold parseArgs.
    rewrite <- (app_nil_r (tl argv)) at 1.
    rewrite (parseArgs_loop_options (tl argv) [] 1 _ Hopts I).
    fold dir. destruct (dirExists w dir); reflexivity. }
  apply usage_error_exit_code.
  destruct (dirExists w dir).
  - right. exists (1 + Z.of_nat (length (tl argv))), dir.
    split; [exact Hparse|]. split; [|reflexivity].
    destruct argv as [|exe args]; cbn [tl length]; lia.
  - left. exact Hparse.
Qed.

Lemma missing_reference_argument_witness :
  main (first_run two_records [] (fun _ => 1))
    ["fm-index"; "-P/nowhere"; "-P/tmp"]%string (initial_state three_lines)
  = (Ret 1,
     {| out := [];
        err := [ErrorLine "Missing arguments."; BlankLine; UsageText];
        polls := 0; cin := open_stream three_lines |}).
Proof.
  apply (missing_reference_argument (first_run two_records [] (fun _ => 1))
           ["fm-index"; "-P/nowhere"; "-P/tmp"]%string
           (initial_state three_lines)).
  repeat constructor.
Defined.
